(** * ApiClient (src/lib/api-client.ts): token storage and single-flight refresh

    A shallow embedding of the [ApiClient] class: the derivation of the two
    cookie keys, the cookie options, the token accessors, the request
    interceptor and the response interceptor with its refresh queue.

    JavaScript runs the class on one thread.  A handler runs without
    interruption up to its next [await]; the model has one transition per
    such uninterrupted piece, and records what the client does to the outside
    world as a list of effects. *)

From stdpp Require Import base strings gmap list.

Open Scope string_scope.
Open Scope list_scope.

(** ** JavaScript values held in token positions

    [cookies.get] answers [undefined] for a missing entry, [processQueue] is
    called with [null], and a field that a response body does not have reads
    as [undefined]. *)

Inductive jsval : Type :=
| JUndefined
| JNull
| JString (s : string).

(** [if (v)]: of the values above only a non-empty string is truthy. *)
Definition truthy (v : jsval) : bool :=
  match v with
  | JString s => negb (String.eqb s "")
  | JUndefined | JNull => false
  end.

(** [`${v}`] in a template literal. *)
Definition template (v : jsval) : string :=
  match v with
  | JUndefined => "undefined"
  | JNull => "null"
  | JString s => s
  end.

(** ** Constructor arguments and the derived cookie keys *)

Record ApiClientProps : Type := {
  env : string;
  apiRefreshUrl : string;
  tokenNamespace : option string;
  apiAuthBaseUrl : string;
  apiBBaseUrl : option string
}.

(** [`${props.tokenNamespace ?? "putty"}_`] *)
Definition tokenPrefix (props : ApiClientProps) : string :=
  default "putty" (tokenNamespace props) +:+ "_".

(** [props.env === "production" ? "" : `_${props.env}`] *)
Definition envSuffix (props : ApiClientProps) : string :=
  if String.eqb (env props) "production" then "" else "_" +:+ env props.

Definition ACCESS_TOKEN_KEY (props : ApiClientProps) : string :=
  tokenPrefix props +:+ "accessToken" +:+ envSuffix props.

Definition REFRESH_TOKEN_KEY (props : ApiClientProps) : string :=
  tokenPrefix props +:+ "refreshToken" +:+ envSuffix props.

(** ** Cookie options *)

(** [document.location], as far as the class reads it.  A browser reports the
    scheme of the page in [protocol] followed by a colon: a page served over
    HTTPS has [protocol = "https:"]. *)
Record Location : Type := {
  href : string;
  protocol : string
}.

Record CookieSetOptions : Type := {
  path : option string;
  secure : option bool;
  domain : option string;
  maxAge : option N
}.

(** [{ ...defaults, ...options }] *)
Definition mergeOptions (defaults options : CookieSetOptions) : CookieSetOptions :=
  {| path := match path options with Some p => Some p | None => path defaults end;
     secure := match secure options with Some b => Some b | None => secure defaults end;
     domain := match domain options with Some d => Some d | None => domain defaults end;
     maxAge := match maxAge options with Some a => Some a | None => maxAge defaults end |}.

Definition noOptions : CookieSetOptions :=
  {| path := None; secure := None; domain := None; maxAge := None |}.

Section CookieOptions.

(** [getDomain] of the tldts package: the registrable domain of a URL, or
    [null] when it has none. *)
Variable getDomain : string → option string.

(** [window] is [None] outside a browser ([typeof window === "undefined"]),
    and the page's [document.location] inside one. *)
Definition getCookieSetOptions (window : option Location) : CookieSetOptions :=
  let isCSR := bool_decide (is_Some window) in
  let domain :=
    match window with
    | Some location => getDomain (href location)
    | None => None
    end in
  {| path := Some "/";
     secure := Some (isCSR &&
                match window with
                | Some location => String.eqb (protocol location) "https"
                | None => false
                end);
     domain := match domain with
               | Some d => if String.eqb d "" then None else Some d
               | None => None
               end;
     maxAge := None |}.

End CookieOptions.

(** ** Build configuration (vite.config.ts)

    [rollupOptions.external] is one regular expression,
    [new RegExp(`^(${[...].join("|")})`)].  None of the listed names holds a
    character that is special in a regular expression, so the expression
    accepts a module id exactly when the id begins with one of the names. *)

Definition externalPackages : list string :=
  ["react"; "react-dom"; "@mui/material"; "@emotion/react"; "@emotion/styled";
   "axios"; "universal-cookie"; "react-is"; "tldts"].

Definition beginsWithOneOf (names : list string) (id : string) : bool :=
  existsb (λ name, String.prefix name id) names.

Definition external (id : string) : bool :=
  beginsWithOneOf externalPackages id.

(** ** Requests, errors and effects *)

(** The part of an axios request config the interceptors read or write.
    [_retry] is the mark the response interceptor leaves on a config
    ([undefined] reads as [false]); the transport keeps it, like every other
    field, when a config is sent again. *)
Record Config : Type := {
  url : string;
  headers : gmap string string;
  _retry : bool
}.

(** The error handed to the response interceptor: [error.config] and
    [error.response?.status] ([None] when there is no response). *)
Record AxiosError : Type := {
  config : Config;
  status : option nat
}.

(** What a promise of the client can reject with. *)
Inductive Reason : Type :=
| ResponseFailure (error : AxiosError)
| NoRefreshToken
| RefreshCallFailure (status : option nat)
| TypeError.

(** [response.data] of the refresh call: nothing to read fields from
    ([null], [undefined]), or a value whose [accessToken] and [refreshToken]
    fields read as given. *)
Inductive ResponseData : Type :=
| NoData
| Data (accessToken refreshToken : jsval).

(** How [refreshApiClient.post] settles: fulfilled with a response, or
    rejected (no response, or a status outside 2xx). *)
Inductive PostResult : Type :=
| PostFulfilled (data : ResponseData)
| PostRejected (status : option nat).

(** What the client does to the outside world. *)
Inductive Effect : Type :=
| RefreshCall (endpoint : string) (refreshToken : jsval)
| Dispatch (request : Config)
| Rejection (request : Config) (reason : Reason).

(** ** State of one client *)

Record Cookie : Type := {
  value : jsval;
  options : CookieSetOptions
}.

(** The promise of [handleTokenRefresh] that the refreshing handler awaits. *)
Inductive RefreshPromise : Type :=
| Pending
| Fulfilled (newAccessToken : jsval)
| Rejected (reason : Reason).

(** The handler suspended at [await this.handleTokenRefresh()]. *)
Record Suspended : Type := {
  originalRequest : Config;
  awaited : RefreshPromise
}.

(** [failedQueue] holds the resolve/reject pair of one promise per entry; the
    reactions of that promise close over the [originalRequest] of the handler
    that pushed it, so an entry is identified by that config. *)
Record State : Type := {
  cookies : gmap string Cookie;
  isRefreshing : bool;
  failedQueue : list Config;
  refresher : option Suspended
}.

Definition initial : State :=
  {| cookies := ∅; isRefreshing := false; failedQueue := []; refresher := None |}.

Definition withCookies (jar : gmap string Cookie) (st : State) : State :=
  {| cookies := jar; isRefreshing := isRefreshing st;
     failedQueue := failedQueue st; refresher := refresher st |}.

Definition withIsRefreshing (b : bool) (st : State) : State :=
  {| cookies := cookies st; isRefreshing := b;
     failedQueue := failedQueue st; refresher := refresher st |}.

Definition withFailedQueue (queue : list Config) (st : State) : State :=
  {| cookies := cookies st; isRefreshing := isRefreshing st;
     failedQueue := queue; refresher := refresher st |}.

Definition withRefresher (r : option Suspended) (st : State) : State :=
  {| cookies := cookies st; isRefreshing := isRefreshing st;
     failedQueue := failedQueue st; refresher := r |}.

Definition withAuthorization (v : string) (c : Config) : Config :=
  {| url := url c; headers := <["Authorization" := v]> (headers c); _retry := _retry c |}.

Definition withRetry (c : Config) : Config :=
  {| url := url c; headers := headers c; _retry := true |}.

Definition isRefreshCall (e : Effect) : bool :=
  match e with RefreshCall _ _ => true | _ => false end.

Definition refreshCalls (trace : list Effect) : nat :=
  length (filter (λ e, isRefreshCall e = true) trace).

(** ** The class *)

Section Client.

Variable getDomain : string → option string.
Variable window : option Location.
Variable props : ApiClientProps.

(** [new Cookies(null, getCookieSetOptions())]: the jar keeps the options
    computed at construction as the defaults of every later [set].  The jar
    itself is the universal-cookie package; it is taken to hand back under a
    name the value last set under it, [undefined] when there is none. *)
Definition defaultSetOptions : CookieSetOptions :=
  getCookieSetOptions getDomain window.

Definition cookiesGet (name : string) (st : State) : jsval :=
  match cookies st !! name with
  | Some c => value c
  | None => JUndefined
  end.

Definition cookiesSet (name : string) (v : jsval) (opts : CookieSetOptions)
    (st : State) : State :=
  withCookies
    (<[name := {| value := v; options := mergeOptions defaultSetOptions opts |}]>
       (cookies st)) st.

Definition cookiesRemove (name : string) (st : State) : State :=
  withCookies (delete name (cookies st)) st.

Definition getAccessToken (st : State) : jsval :=
  cookiesGet (ACCESS_TOKEN_KEY props) st.

Definition getRefreshToken (st : State) : jsval :=
  cookiesGet (REFRESH_TOKEN_KEY props) st.

Definition setAccessToken (token : jsval) (st : State) : State :=
  cookiesSet (ACCESS_TOKEN_KEY props) token noOptions st.

Definition setRefreshToken (token : jsval) (st : State) : State :=
  cookiesSet (REFRESH_TOKEN_KEY props) token
    {| path := None; secure := None; domain := None;
       maxAge := Some (60 * 60 * 24 * 7)%N |} st.

Definition clearTokens (st : State) : State :=
  cookiesRemove (REFRESH_TOKEN_KEY props)
    (cookiesRemove (ACCESS_TOKEN_KEY props) st).

(** The request interceptor. *)
Definition requestInterceptor (st : State) (config : Config) : Config :=
  let token := getAccessToken st in
  if truthy token
  then withAuthorization ("Bearer " +:+ template token) config
  else config.

(** [instance(config)]: the config passes the request interceptor and goes
    out. *)
Definition instance (st : State) (config : Config) : Effect :=
  Dispatch (requestInterceptor st config).

(** [processQueue]: every entry is settled in the order of the array, then the
    array is replaced by an empty one.  The result lists, per entry, what its
    promise was settled with: [inr token] for [prom.resolve(token)] and
    [inl error] for [prom.reject(error)]. *)
Definition processQueue (error : option Reason) (token : jsval) (st : State)
    : State * list (Config * (Reason + jsval)) :=
  (withFailedQueue [] st,
   (λ prom, match error with
            | Some e => (prom, inl e)
            | None => (prom, inr token)
            end) <$> failedQueue st).

(** The reactions attached to a queued promise:
    [.then((token) => { ...Authorization = `Bearer ${token}`; return instance(originalRequest) })]
    and [.catch((err) => Promise.reject(err))]. *)
Definition queuedReaction (st : State) (settled : Config * (Reason + jsval)) : Effect :=
  match settled with
  | (originalRequest, inr token) =>
      instance st (withAuthorization ("Bearer " +:+ template token) originalRequest)
  | (originalRequest, inl err) => Rejection originalRequest err
  end.

(** [handleTokenRefresh] up to its [await]: either it has thrown and caught
    already (no refresh token), or the POST is under way. *)
Definition handleTokenRefresh (st : State) : State * RefreshPromise * list Effect :=
  let refreshToken := getRefreshToken st in
  if negb (truthy refreshToken)
  then (clearTokens st, Rejected NoRefreshToken, [])
  else (st, Pending, [RefreshCall (apiRefreshUrl props) refreshToken]).

(** [handleTokenRefresh] from its [await] on. *)
Definition handleTokenRefreshResumed (result : PostResult) (st : State)
    : State * RefreshPromise :=
  match result with
  | PostFulfilled (Data newAccessToken newRefreshToken) =>
      let st := setAccessToken newAccessToken st in
      let st := if truthy newRefreshToken
                then setRefreshToken newRefreshToken st else st in
      (st, Fulfilled newAccessToken)
  | PostFulfilled NoData => (clearTokens st, Rejected TypeError)
  | PostRejected status => (clearTokens st, Rejected (RefreshCallFailure status))
  end.

Definition suspend (originalRequest : Config) (promise : RefreshPromise)
    (st : State) : State :=
  withRefresher
    (Some {| originalRequest := originalRequest; awaited := promise |}) st.

(** The rejection handler of the response interceptor, up to its [await]. *)
Definition responseRejected (error : AxiosError) (st : State) : State * list Effect :=
  let originalRequest := config error in
  if bool_decide (status error = Some 401) && negb (_retry originalRequest) then
    if String.eqb (url originalRequest) "/api/auth/login" then
      (st, [Rejection originalRequest (ResponseFailure error)])
    else if isRefreshing st then
      (withFailedQueue (failedQueue st ++ [originalRequest]) st, [])
    else
      let originalRequest := withRetry originalRequest in
      let st := withIsRefreshing true st in
      let '(st, promise, effects) := handleTokenRefresh st in
      (suspend originalRequest promise st, effects)
  else (st, [Rejection originalRequest (ResponseFailure error)]).

(** The same handler from its [await] on: the [try] after the await, or the
    [catch], then the [finally]; and the reactions of the promises that
    [processQueue] settled, which run before anything else can.  The handler
    calls [instance(originalRequest)] itself, the reactions run once it has
    returned: its own request comes first in the effects, the queued ones
    follow in the order of the queue. *)
Definition awaitResumed (originalRequest : Config) (outcome : Reason + jsval)
    (st : State) : State * list Effect :=
  match outcome with
  | inr newAccessToken =>
      let originalRequest :=
        withAuthorization ("Bearer " +:+ template newAccessToken) originalRequest in
      let '(st, settled) := processQueue None newAccessToken st in
      let replay := instance st originalRequest in
      (withRefresher None (withIsRefreshing false st),
       replay :: (queuedReaction st <$> settled))
  | inl refreshError =>
      let '(st, settled) := processQueue (Some refreshError) JNull st in
      (withRefresher None (withIsRefreshing false st),
       Rejection originalRequest refreshError :: (queuedReaction st <$> settled))
  end.

(** What can happen to a client: calls of its public methods, a request
    entering an instance, a failed response reaching the response
    interceptor, the refresh POST settling, and the refreshing handler
    resuming once the promise it awaits has settled.  The last two need a
    suspended handler whose promise is pending, respectively settled; in any
    other state they cannot happen, and [step] leaves the state as it is. *)
Inductive Event : Type :=
| CallSetAccessToken (token : string)
| CallSetRefreshToken (token : string)
| CallClearTokens
| Request (config : Config)
| ResponseRejected (error : AxiosError)
| PostSettled (result : PostResult)
| AwaitResumed.

Definition step (st : State) (ev : Event) : State * list Effect :=
  match ev with
  | CallSetAccessToken token => (setAccessToken (JString token) st, [])
  | CallSetRefreshToken token => (setRefreshToken (JString token) st, [])
  | CallClearTokens => (clearTokens st, [])
  | Request config => (st, [instance st config])
  | ResponseRejected error => responseRejected error st
  | PostSettled result =>
      match refresher st with
      | Some {| originalRequest := o; awaited := Pending |} =>
          let '(st, promise) := handleTokenRefreshResumed result st in
          (suspend o promise st, [])
      | _ => (st, [])
      end
  | AwaitResumed =>
      match refresher st with
      | Some {| originalRequest := o; awaited := Fulfilled token |} =>
          awaitResumed o (inr token) st
      | Some {| originalRequest := o; awaited := Rejected reason |} =>
          awaitResumed o (inl reason) st
      | _ => (st, [])
      end
  end.

Fixpoint run (st : State) (evs : list Event) : State * list Effect :=
  match evs with
  | [] => (st, [])
  | ev :: evs =>
      let '(st1, out1) := step st ev in
      let '(st2, out2) := run st1 evs in
      (st2, out1 ++ out2)
  end.

(** ** Vocabulary of the properties *)

(** A request the refresh protocol takes up when it fails with 401: not yet
    marked as a retry and not sent to the login path. *)
Definition eligible (c : Config) : Prop :=
  _retry c = false ∧ url c ≠ "/api/auth/login".

(** What holds of every state the client can reach: a refresh is marked in
    flight exactly while a handler is suspended on it, that handler's request
    carries the retry mark, and the queue holds entries only then, each left
    by an eligible request. *)
Definition consistent (st : State) : Prop :=
  Forall eligible (failedQueue st) ∧
  match refresher st with
  | Some s => isRefreshing st = true ∧ _retry (originalRequest s) = true
  | None => isRefreshing st = false ∧ failedQueue st = []
  end.

Definition unauthorized (c : Config) : AxiosError :=
  {| config := c; status := Some 401 |}.

(** A response of the refresh endpoint that carries an access token: a body
    whose [accessToken] field is a string. *)
Definition carriesAccessToken (result : PostResult) : bool :=
  match result with
  | PostFulfilled (Data (JString _) _) => true
  | _ => false
  end.

(** A settled POST that lets [handleTokenRefresh] finish its [try] block:
    fulfilled, with a body whose fields can be read. *)
Definition readable (result : PostResult) : bool :=
  match result with
  | PostFulfilled (Data _ _) => true
  | _ => false
  end.

(** The state after a transition, and what the transition emitted. *)
Definition after {E : Type} (r : State * E) : State := fst r.
Definition emitted {E : Type} (r : State * E) : E := snd r.

(** Both token entries are gone from the jar. *)
Definition tokensRemoved (props : ApiClientProps) (st : State) : Prop :=
  cookies st !! ACCESS_TOKEN_KEY props = None ∧
  cookies st !! REFRESH_TOKEN_KEY props = None.

(** A failed response for [c] enters the refresh protocol in [st]: it is
    queued behind the refresh in flight, or it starts a refresh of its own. *)
Definition entersRefreshProtocol (r : State * list Effect) (c : Config)
    (st : State) : Prop :=
  if isRefreshing st
  then failedQueue (after r) = failedQueue st ++ [c] ∧ emitted r = []
  else isRefreshing (after r) = true ∧
       ∃ promise, refresher (after r) =
                    Some {| originalRequest := withRetry c; awaited := promise |}.

(** What a whole refresh cycle does once the POST has gone out: the POST
    settles, further eligible requests fail with 401 in the meantime, and the
    handler resumes. *)
Definition settleCycle (result : PostResult) (late : list Config) : list Event :=
  PostSettled result :: (ResponseRejected ∘ unauthorized <$> late) ++ [AwaitResumed].

(** An effect that answers a call of the client: the request goes out, or the
    promise of the call rejects. *)
Definition isAnswer (e : Effect) : bool :=
  match e with
  | Dispatch _ | Rejection _ _ => true
  | RefreshCall _ _ => false
  end.

Definition answers (trace : list Effect) : nat :=
  length (filter (λ e, isAnswer e = true) trace).

(** An event that hands a request to the client: a new request, or a failed
    response coming back. *)
Definition isCall (ev : Event) : bool :=
  match ev with
  | Request _ | ResponseRejected _ => true
  | _ => false
  end.

Definition calls (evs : list Event) : nat :=
  length (filter (λ ev, isCall ev = true) evs).

Definition isResume (ev : Event) : bool :=
  match ev with AwaitResumed => true | _ => false end.

Definition resumes (evs : list Event) : nat :=
  length (filter (λ ev, isResume ev = true) evs).

(** How many refreshes the client can start before a handler resumes: one
    when no handler is suspended, none otherwise. *)
Definition startable (st : State) : nat :=
  match refresher st with Some _ => 0 | None => 1 end.

(** The requests the client holds without having answered them: the queue,
    and the request of the suspended handler. *)
Definition outstanding (st : State) : nat :=
  length (failedQueue st) +
  match refresher st with Some _ => 1 | None => 0 end.

(** ** Concrete configurations used in the examples *)

Definition stagingApp : ApiClientProps :=
  {| env := "staging"; apiRefreshUrl := "/api/auth/refresh";
     tokenNamespace := Some "app"; apiAuthBaseUrl := "https://auth.example.com";
     apiBBaseUrl := None |}.

Definition productionDefault : ApiClientProps :=
  {| env := "production"; apiRefreshUrl := "/api/auth/refresh";
     tokenNamespace := None; apiAuthBaseUrl := "https://auth.example.com";
     apiBBaseUrl := None |}.

Definition httpsPage : Location :=
  {| href := "https://example.com/"; protocol := "https:" |}.

(** A stand-in for tldts on the one page above. *)
Definition exampleDomain (href : string) : option string :=
  if String.eqb href "https://example.com/" then Some "example.com" else None.

Definition getUsers : Config :=
  {| url := "/api/users"; headers := ∅; _retry := false |}.

Definition getOrders : Config :=
  {| url := "/api/orders"; headers := ∅; _retry := false |}.

Definition postLogin : Config :=
  {| url := "/api/auth/login"; headers := ∅; _retry := false |}.

Definition tokenCookie (v : string) : Cookie :=
  {| value := JString v; options := noOptions |}.

(** A client of [stagingApp] after a login stored both tokens. *)
Definition loggedIn : State :=
  {| cookies := {[ "app_accessToken_staging" := tokenCookie "A1";
                   "app_refreshToken_staging" := tokenCookie "R1" ]};
     isRefreshing := false; failedQueue := []; refresher := None |}.

(** The same client while the refresh POST started by [getUsers] is in
    flight and [getOrders] waits in the queue. *)
Definition refreshing : State :=
  {| cookies := cookies loggedIn;
     isRefreshing := true; failedQueue := [getOrders];
     refresher := Some {| originalRequest := withRetry getUsers;
                          awaited := Pending |} |}.

(** The same client once the POST has answered with the token [A2]. *)
Definition refreshed : State :=
  {| cookies := {[ "app_accessToken_staging" := tokenCookie "A2";
                   "app_refreshToken_staging" := tokenCookie "R1" ]};
     isRefreshing := true; failedQueue := [getOrders];
     refresher := Some {| originalRequest := withRetry getUsers;
                          awaited := Fulfilled (JString "A2") |} |}.

(** The same client once the POST has been refused. *)
Definition refused : State :=
  {| cookies := ∅;
     isRefreshing := true; failedQueue := [getOrders];
     refresher := Some {| originalRequest := withRetry getUsers;
                          awaited := Rejected (RefreshCallFailure (Some 403)) |} |}.

(** A client of [stagingApp] whose access-token entry holds the empty string. *)
Definition emptyAccessToken : State :=
  {| cookies := {[ "app_accessToken_staging" := tokenCookie "" ]};
     isRefreshing := false; failedQueue := []; refresher := None |}.

(** * Properties *)

(** ** Strings *)

Lemma append_nil (b : string) : "" +:+ b = b.
Proof. reflexivity. Qed.

Lemma append_cons (x : Ascii.ascii) (a b : string) :
  String x a +:+ b = String x (a +:+ b).
Proof. reflexivity. Qed.

Lemma append_assoc (a b c : string) : (a +:+ b) +:+ c = a +:+ (b +:+ c).
Proof.
  induction a as [|x a IH]; [reflexivity|].
  by rewrite !append_cons, IH.
Qed.

Lemma append_cancel_l (p a b : string) : p +:+ a = p +:+ b → a = b.
Proof.
  induction p as [|x p IH]; [done|].
  rewrite !append_cons. intros [= H]. auto.
Qed.

Lemma eqb_false_ne (a b : string) : String.eqb a b = false → a ≠ b.
Proof. intros H ->. by rewrite String.eqb_refl in H. Qed.

(** ** Cookie keys *)

Lemma envSuffix_inj (p q : ApiClientProps) :
  envSuffix p = envSuffix q → env p = env q.
Proof.
  unfold envSuffix.
  destruct (String.eqb (env p) "production") eqn:Hp,
           (String.eqb (env q) "production") eqn:Hq;
    rewrite ?append_cons.
  - apply String.eqb_eq in Hp, Hq. congruence.
  - discriminate.
  - discriminate.
  - intros [= H]. exact H.
Qed.

Lemma keys_distinct (p q : ApiClientProps) :
  tokenNamespace p = tokenNamespace q →
  ACCESS_TOKEN_KEY p ≠ REFRESH_TOKEN_KEY q.
Proof.
  unfold ACCESS_TOKEN_KEY, REFRESH_TOKEN_KEY, tokenPrefix.
  intros -> H. rewrite !append_assoc in H.
  apply append_cancel_l in H. discriminate H.
Qed.

Lemma access_keys_distinct (p q : ApiClientProps) :
  tokenNamespace p = tokenNamespace q → env p ≠ env q →
  ACCESS_TOKEN_KEY p ≠ ACCESS_TOKEN_KEY q.
Proof.
  unfold ACCESS_TOKEN_KEY, tokenPrefix.
  intros -> Hne H. rewrite !append_assoc in H.
  apply append_cancel_l in H. injection H as H.
  change (envSuffix p = envSuffix q) in H.
  by apply Hne, envSuffix_inj.
Qed.

Lemma refresh_keys_distinct (p q : ApiClientProps) :
  tokenNamespace p = tokenNamespace q → env p ≠ env q →
  REFRESH_TOKEN_KEY p ≠ REFRESH_TOKEN_KEY q.
Proof.
  unfold REFRESH_TOKEN_KEY, tokenPrefix.
  intros -> Hne H. rewrite !append_assoc in H.
  apply append_cancel_l in H. injection H as H.
  change (envSuffix p = envSuffix q) in H.
  by apply Hne, envSuffix_inj.
Qed.

(** C7.  The keys are [n ++ "_accessToken"] and [n ++ "_refreshToken"], with
    [n] the namespace (["putty"] when none is given), followed by ["_" ++ e]
    unless the environment [e] is ["production"].  Two configurations with
    the same namespace and environment derive the same keys; two with the same
    namespace and different environments derive four different keys.  For
    [staging] and [app] the keys are [app_accessToken_staging] and
    [app_refreshToken_staging]. *)
Theorem token_keys_derivation (p : ApiClientProps) :
  let n := default "putty" (tokenNamespace p) in
  let suffix := if bool_decide (env p = "production") then "" else "_" +:+ env p in
  ACCESS_TOKEN_KEY p = n +:+ "_accessToken" +:+ suffix ∧
  REFRESH_TOKEN_KEY p = n +:+ "_refreshToken" +:+ suffix ∧
  (∀ q, tokenNamespace q = tokenNamespace p → env q = env p →
        ACCESS_TOKEN_KEY q = ACCESS_TOKEN_KEY p ∧
        REFRESH_TOKEN_KEY q = REFRESH_TOKEN_KEY p) ∧
  (∀ q, tokenNamespace q = tokenNamespace p → env q ≠ env p →
        ACCESS_TOKEN_KEY q ≠ ACCESS_TOKEN_KEY p ∧
        ACCESS_TOKEN_KEY q ≠ REFRESH_TOKEN_KEY p ∧
        REFRESH_TOKEN_KEY q ≠ ACCESS_TOKEN_KEY p ∧
        REFRESH_TOKEN_KEY q ≠ REFRESH_TOKEN_KEY p) ∧
  (tokenNamespace p = Some "app" → env p = "staging" →
        ACCESS_TOKEN_KEY p = "app_accessToken_staging" ∧
        REFRESH_TOKEN_KEY p = "app_refreshToken_staging").
Proof.
  intros n suffix.
  assert (Hs : envSuffix p = suffix).
  { unfold envSuffix, suffix. case_bool_decide as He.
    - by rewrite He.
    - destruct (String.eqb (env p) "production") eqn:E; [|done].
      by apply String.eqb_eq in E. }
  split; [|split; [|split; [|split]]].
  - unfold ACCESS_TOKEN_KEY, tokenPrefix. by rewrite Hs, append_assoc.
  - unfold REFRESH_TOKEN_KEY, tokenPrefix. by rewrite Hs, append_assoc.
  - intros q Hn He.
    unfold ACCESS_TOKEN_KEY, REFRESH_TOKEN_KEY, tokenPrefix, envSuffix.
    by rewrite Hn, He.
  - intros q Hn He. split; [|split; [|split]].
    + by apply access_keys_distinct.
    + by apply keys_distinct.
    + apply not_eq_sym. by apply keys_distinct.
    + by apply refresh_keys_distinct.
  - intros Hn He.
    unfold ACCESS_TOKEN_KEY, REFRESH_TOKEN_KEY, tokenPrefix, envSuffix.
    by rewrite Hn, He.
Qed.

Lemma token_keys_derivation_witness :
  ACCESS_TOKEN_KEY stagingApp = "app_accessToken_staging" ∧
  REFRESH_TOKEN_KEY stagingApp = "app_refreshToken_staging" ∧
  ACCESS_TOKEN_KEY productionDefault = "putty_accessToken" ∧
  ACCESS_TOKEN_KEY productionDefault ≠ ACCESS_TOKEN_KEY
    {| env := "staging"; apiRefreshUrl := ""; tokenNamespace := None;
       apiAuthBaseUrl := ""; apiBBaseUrl := None |}.
Proof.
  destruct (token_keys_derivation stagingApp) as (_ & _ & _ & _ & Hex).
  destruct (token_keys_derivation productionDefault) as (Ha & _ & _ & Hdis & _).
  destruct Hex as [H1 H2]; [reflexivity | reflexivity |].
  split; [exact H1 | split; [exact H2 | split; [exact Ha |]]].
  apply not_eq_sym. apply Hdis; [reflexivity | discriminate].
Defined.

(** ** Cookie options *)

Lemma getCookieSetOptions_path registrable page :
  path (getCookieSetOptions registrable page) = Some "/".
Proof. reflexivity. Qed.

(** The flag is on exactly for a location whose [protocol] is the string
    ["https"], without the colon. *)
Lemma getCookieSetOptions_secure registrable page :
  secure (getCookieSetOptions registrable page) = Some true ↔
  ∃ location, page = Some location ∧ protocol location = "https".
Proof.
  destruct page as [location|]; simpl.
  - split.
    + intros [= H]. exists location. split; [done|]. by apply String.eqb_eq.
    + intros (l & [= <-] & H). by rewrite H.
  - split; [discriminate | by intros (l & ? & _)].
Qed.

Lemma getCookieSetOptions_domain registrable page d :
  domain (getCookieSetOptions registrable page) = Some d ↔
  ∃ location, page = Some location ∧ registrable (href location) = Some d ∧ d ≠ "".
Proof.
  destruct page as [location|]; simpl.
  - destruct (registrable (href location)) as [d'|] eqn:E.
    + destruct (String.eqb d' "") eqn:E'.
      * apply String.eqb_eq in E' as ->. split; [discriminate|].
        intros (l & [= <-] & Hd & Hne). congruence.
      * apply eqb_false_ne in E'. split.
        -- intros [= <-]. by exists location.
        -- intros (l & [= <-] & Hd & Hne). congruence.
    + split; [discriminate|]. intros (l & [= <-] & Hd & _). congruence.
  - split; [discriminate | by intros (l & ? & _)].
Qed.

(** C8.  On a page served over HTTPS, where the browser reports the protocol
    as ["https:"], the options have path ["/"] and the secure flag off. *)
Theorem getCookieSetOptions_https_page (registrable : string → option string) :
  path (getCookieSetOptions registrable (Some httpsPage)) = Some "/" ∧
  secure (getCookieSetOptions registrable (Some httpsPage)) = Some false.
Proof. split; reflexivity. Qed.

(** ** The client *)

Lemma key_ne : ACCESS_TOKEN_KEY props ≠ REFRESH_TOKEN_KEY props.
Proof. by apply keys_distinct. Qed.

(** *** Token accessors *)

Lemma getAccessToken_setAccessToken token st :
  getAccessToken (setAccessToken token st) = token.
Proof.
  unfold getAccessToken, setAccessToken, cookiesGet, cookiesSet.
  simpl. by rewrite lookup_insert_eq.
Qed.

Lemma getRefreshToken_setAccessToken token st :
  getRefreshToken (setAccessToken token st) = getRefreshToken st.
Proof.
  unfold getRefreshToken, setAccessToken, cookiesGet, cookiesSet.
  simpl. by rewrite lookup_insert_ne by apply key_ne.
Qed.

Lemma getAccessToken_setRefreshToken token st :
  getAccessToken (setRefreshToken token st) = getAccessToken st.
Proof.
  unfold getAccessToken, setRefreshToken, cookiesGet, cookiesSet.
  simpl. by rewrite lookup_insert_ne by (apply not_eq_sym, key_ne).
Qed.

Lemma getRefreshToken_setRefreshToken token st :
  getRefreshToken (setRefreshToken token st) = token.
Proof.
  unfold getRefreshToken, setRefreshToken, cookiesGet, cookiesSet.
  simpl. by rewrite lookup_insert_eq.
Qed.

Lemma tokensRemoved_clearTokens st : tokensRemoved props (clearTokens st).
Proof.
  unfold tokensRemoved, clearTokens, cookiesRemove. simpl. split.
  - rewrite lookup_delete_ne by (apply not_eq_sym, key_ne).
    apply lookup_delete_eq.
  - apply lookup_delete_eq.
Qed.

Lemma tokensRemoved_get st :
  tokensRemoved props st →
  getAccessToken st = JUndefined ∧ getRefreshToken st = JUndefined.
Proof.
  intros [Ha Hr].
  unfold getAccessToken, getRefreshToken, cookiesGet.
  by rewrite Ha, Hr.
Qed.

(** *** Request interceptor *)

Lemma requestInterceptor_falsy st c :
  truthy (getAccessToken st) = false → requestInterceptor st c = c.
Proof. unfold requestInterceptor. by intros ->. Qed.

Lemma requestInterceptor_truthy st c :
  truthy (getAccessToken st) = true →
  requestInterceptor st c =
    withAuthorization ("Bearer " +:+ template (getAccessToken st)) c.
Proof. unfold requestInterceptor. by intros ->. Qed.

Lemma truthy_JString t : t ≠ "" → truthy (JString t) = true.
Proof.
  intros H. simpl. destruct (String.eqb t "") eqn:E; [|done].
  by apply String.eqb_eq in E.
Qed.

Lemma withAuthorization_idem v c :
  withAuthorization v (withAuthorization v c) = withAuthorization v c.
Proof. unfold withAuthorization. simpl. by rewrite insert_insert_eq. Qed.

(** A config that already carries the stored token passes unchanged. *)
Lemma requestInterceptor_bearer st c :
  requestInterceptor st
    (withAuthorization ("Bearer " +:+ template (getAccessToken st)) c) =
  withAuthorization ("Bearer " +:+ template (getAccessToken st)) c.
Proof.
  unfold requestInterceptor. destruct (truthy (getAccessToken st)); [|done].
  apply withAuthorization_idem.
Qed.

(** C9 (amended).  A request entering an instance always goes out, never
    rejected by the interceptor.  When no access token is stored, or what is
    stored is falsy (the empty string), the config goes out as it came in;
    when a non-empty token [t] is stored, the config goes out with its
    Authorization header set to ["Bearer " ++ t] and nothing else changed. *)
Theorem requestInterceptor_authorization (st : State) (c : Config) :
  step st (Request c) = (st, [Dispatch (requestInterceptor st c)]) ∧
  (cookies st !! ACCESS_TOKEN_KEY props = None → requestInterceptor st c = c) ∧
  (truthy (getAccessToken st) = false → requestInterceptor st c = c) ∧
  (∀ t, getAccessToken st = JString t → t ≠ "" →
     headers (requestInterceptor st c) !! "Authorization" = Some ("Bearer " +:+ t) ∧
     requestInterceptor st c = withAuthorization ("Bearer " +:+ t) c).
Proof.
  split; [reflexivity|]. split; [|split].
  - intros H. apply requestInterceptor_falsy.
    unfold getAccessToken, cookiesGet. by rewrite H.
  - apply requestInterceptor_falsy.
  - intros t H Hne.
    rewrite requestInterceptor_truthy by (rewrite H; by apply truthy_JString).
    rewrite H. split; [|done]. simpl. apply lookup_insert_eq.
Qed.

(** *** Response interceptor *)

(** C6.  A 401 on the login path is handed back to the caller as it came:
    the state (tokens, flag, queue) is the same afterwards and the rejection
    is the only effect, so no refresh call goes out. *)
Theorem login_unauthorized_passthrough (st : State) (error : AxiosError) :
  url (config error) = "/api/auth/login" →
  status error = Some 401 →
  step st (ResponseRejected error) =
    (st, [Rejection (config error) (ResponseFailure error)]).
Proof.
  intros Hurl Hstatus. simpl. unfold responseRejected.
  rewrite Hurl, String.eqb_refl. by repeat case_match.
Qed.

Lemma responseRejected_marked st c :
  _retry c = true →
  responseRejected (unauthorized c) st =
    (st, [Rejection c (ResponseFailure (unauthorized c))]).
Proof.
  intros H. unfold responseRejected. simpl. by rewrite H.
Qed.

Lemma responseRejected_busy st c :
  eligible c → isRefreshing st = true →
  responseRejected (unauthorized c) st =
    (withFailedQueue (failedQueue st ++ [c]) st, []).
Proof.
  intros [Hretry Hurl] Hbusy. unfold responseRejected. simpl.
  rewrite Hretry, Hbusy. simpl.
  destruct (String.eqb (url c) "/api/auth/login") eqn:E; [|done].
  by apply String.eqb_eq in E.
Qed.

Lemma responseRejected_idle st c :
  eligible c → isRefreshing st = false →
  responseRejected (unauthorized c) st =
    let '(st1, promise, effects) := handleTokenRefresh (withIsRefreshing true st) in
    (suspend (withRetry c) promise st1, effects).
Proof.
  intros [Hretry Hurl] Hidle. unfold responseRejected. simpl.
  rewrite Hretry, Hidle. simpl.
  destruct (String.eqb (url c) "/api/auth/login") eqn:E; [|done].
  by apply String.eqb_eq in E.
Qed.

(** *** The invariant *)

Lemma consistent_initial : consistent initial.
Proof. split; [constructor | done]. Qed.

Lemma consistent_withCookies jar st :
  consistent st → consistent (withCookies jar st).
Proof. done. Qed.

Lemma consistent_responseRejected st error :
  consistent st → consistent (after (responseRejected error st)).
Proof.
  intros [Hq Hr]. unfold responseRejected.
  destruct (bool_decide (status error = Some 401)) eqn:Hs; simpl; [|done].
  destruct (_retry (config error)) eqn:Hretry; simpl; [done|].
  destruct (String.eqb (url (config error)) "/api/auth/login") eqn:Hurl; [done|].
  apply eqb_false_ne in Hurl.
  destruct (isRefreshing st) eqn:Hbusy.
  - split; simpl.
    + apply Forall_app. split; [done|].
      constructor; [by split | constructor].
    + destruct (refresher st); [by destruct Hr as [_ ?] | by destruct Hr].
  - destruct (refresher st) as [s|] eqn:Hs'; [by destruct Hr|].
    destruct Hr as [_ Hnil].
    unfold handleTokenRefresh.
    destruct (negb (truthy (getRefreshToken (withIsRefreshing true st))));
      simpl; (split; [exact Hq | by split]).
Qed.

Lemma consistent_step st ev : consistent st → consistent (after (step st ev)).
Proof.
  intros H. destruct ev as [t|t| |c|error|result|]; simpl; try done.
  - by apply consistent_responseRejected.
  - destruct (refresher st) as [[o [| |]]|] eqn:Hr; try done.
    destruct H as [Hq H]. rewrite Hr in H.
    unfold handleTokenRefreshResumed.
    destruct result as [[|a r]|status]; simpl; try by split.
    destruct (truthy r); by split.
  - destruct (refresher st) as [[o [| |]]|] eqn:Hr; try done;
      simpl; split; simpl; by constructor.
Qed.

Lemma consistent_run evs : ∀ st, consistent st → consistent (after (run st evs)).
Proof.
  induction evs as [|ev evs IH]; intros st H; [done|].
  simpl. pose proof (consistent_step st ev H) as H1.
  destruct (step st ev) as [st1 out1]. specialize (IH st1 H1).
  by destruct (run st1 evs).
Qed.

(** Every state a client reaches from its construction is consistent. *)
Lemma reachable_consistent evs : consistent (after (run initial evs)).
Proof. apply consistent_run, consistent_initial. Qed.

(** *** Requests that fail while a refresh is in flight *)

Lemma run_app evs1 evs2 st :
  run st (evs1 ++ evs2) =
    let '(st1, out1) := run st evs1 in
    let '(st2, out2) := run st1 evs2 in
    (st2, out1 ++ out2).
Proof.
  revert st. induction evs1 as [|ev evs1 IH]; intros st; simpl.
  - by destruct (run st evs2).
  - destruct (step st ev) as [st1 out1]. rewrite IH.
    destruct (run st1 evs1) as [st2 out2].
    destruct (run st2 evs2) as [st3 out3]. by rewrite app_assoc.
Qed.

Lemma run_queue cs : ∀ st,
  Forall eligible cs → isRefreshing st = true →
  run st (ResponseRejected ∘ unauthorized <$> cs) =
    (withFailedQueue (failedQueue st ++ cs) st, []).
Proof.
  induction cs as [|c cs IH]; intros st Hcs Hbusy.
  - simpl. rewrite app_nil_r. by destruct st.
  - apply Forall_cons in Hcs as [Hc Hcs]. simpl.
    rewrite responseRejected_busy by done.
    rewrite IH by done. simpl. by rewrite <- app_assoc.
Qed.

(** *** Completion of a refresh cycle *)

Lemma awaitResumed_fulfilled st o token :
  awaitResumed o (inr token) st =
    (withRefresher None (withIsRefreshing false (withFailedQueue [] st)),
     instance st (withAuthorization ("Bearer " +:+ template token) o) ::
     ((λ c, instance st (withAuthorization ("Bearer " +:+ template token) c))
        <$> failedQueue st)).
Proof.
  unfold awaitResumed, processQueue. simpl. f_equal. f_equal.
  rewrite <- list_fmap_compose. by apply list_fmap_ext.
Qed.

Lemma awaitResumed_rejected st o reason :
  awaitResumed o (inl reason) st =
    (withRefresher None (withIsRefreshing false (withFailedQueue [] st)),
     Rejection o reason :: ((λ c, Rejection c reason) <$> failedQueue st)).
Proof.
  unfold awaitResumed, processQueue. simpl. f_equal. f_equal.
  rewrite <- list_fmap_compose. by apply list_fmap_ext.
Qed.

Lemma step_AwaitResumed_fulfilled st o token :
  refresher st = Some {| originalRequest := o; awaited := Fulfilled token |} →
  step st AwaitResumed = awaitResumed o (inr token) st.
Proof. intros H. unfold step. by rewrite H. Qed.

Lemma step_AwaitResumed_rejected st o reason :
  refresher st = Some {| originalRequest := o; awaited := Rejected reason |} →
  step st AwaitResumed = awaitResumed o (inl reason) st.
Proof. intros H. unfold step. by rewrite H. Qed.

Lemma step_PostSettled_pending st o result :
  refresher st = Some {| originalRequest := o; awaited := Pending |} →
  step st (PostSettled result) =
    (suspend o (snd (handleTokenRefreshResumed result st))
       (fst (handleTokenRefreshResumed result st)), []).
Proof.
  intros H. unfold step. rewrite H.
  by destruct (handleTokenRefreshResumed result st).
Qed.

(** C5.  A request that fails while a refresh is in flight is put at the end
    of the queue.  When the refreshing handler resumes, whatever the promise
    it awaited settled with, every entry of the queue is settled once, in the
    order of the queue: on success each is sent again with the new token, on
    failure each is rejected with the failure.  Afterwards the queue is empty
    and the flag is false. *)
Theorem refresh_completion_drains_queue (st : State) (o : Config)
    (promise : RefreshPromise) :
  refresher st = Some {| originalRequest := o; awaited := promise |} →
  promise ≠ Pending →
  let r := step st AwaitResumed in
  (∀ c, eligible c → isRefreshing st = true →
     failedQueue (after (step st (ResponseRejected (unauthorized c)))) =
       failedQueue st ++ [c]) ∧
  failedQueue (after r) = [] ∧
  isRefreshing (after r) = false ∧
  refresher (after r) = None ∧
  cookies (after r) = cookies st ∧
  match promise with
  | Fulfilled token =>
      tail (emitted r) =
        (λ c, instance st (withAuthorization ("Bearer " +:+ template token) c))
          <$> failedQueue st
  | Rejected reason =>
      tail (emitted r) = (λ c, Rejection c reason) <$> failedQueue st
  | Pending => False
  end.
Proof.
  intros Hr Hp r. subst r. split.
  { intros c Hc Hbusy.
    change (step st (ResponseRejected (unauthorized c)))
      with (responseRejected (unauthorized c) st).
    by rewrite responseRejected_busy. }
  destruct promise as [|token|reason]; [done| |].
  - rewrite (step_AwaitResumed_fulfilled _ _ _ Hr).
    by rewrite awaitResumed_fulfilled.
  - rewrite (step_AwaitResumed_rejected _ _ _ Hr).
    by rewrite awaitResumed_rejected.
Qed.

(** *** Failure of a refresh *)

(** C3.  A refresh attempt fails in one of two transitions: the handler
    finds no refresh token, or the POST settles without a readable response
    (it is rejected, for a network error or a status outside 2xx, or the
    response has no body).  Each removes both token entries and leaves the
    awaited promise rejected with the reason.  When the handler then resumes, the originating
    request and every queued request reject with that reason. *)
Theorem refresh_failure_clears_tokens_and_rejects :
  (∀ st c, isRefreshing st = false → eligible c →
     truthy (getRefreshToken st) = false →
     let r := step st (ResponseRejected (unauthorized c)) in
     tokensRemoved props (after r) ∧ emitted r = [] ∧
     refresher (after r) =
       Some {| originalRequest := withRetry c; awaited := Rejected NoRefreshToken |}) ∧
  (∀ st o result, refresher st = Some {| originalRequest := o; awaited := Pending |} →
     readable result = false →
     let r := step st (PostSettled result) in
     tokensRemoved props (after r) ∧ emitted r = [] ∧
     ∃ reason, refresher (after r) =
       Some {| originalRequest := o; awaited := Rejected reason |}) ∧
  (∀ st o reason,
     refresher st = Some {| originalRequest := o; awaited := Rejected reason |} →
     let r := step st AwaitResumed in
     cookies (after r) = cookies st ∧
     emitted r = Rejection o reason :: ((λ c, Rejection c reason) <$> failedQueue st)).
Proof.
  split; [|split].
  - intros st c Hidle Hc Hrt r. subst r. simpl.
    rewrite responseRejected_idle by done.
    unfold handleTokenRefresh.
    replace (getRefreshToken (withIsRefreshing true st))
      with (getRefreshToken st) by done.
    rewrite Hrt. simpl. split; [|done].
    apply (tokensRemoved_clearTokens (withIsRefreshing true st)).
  - intros st o result Hr Hres r. subst r.
    rewrite (step_PostSettled_pending _ _ _ Hr).
    destruct result as [[|a rt]|status]; simpl.
    + split; [apply tokensRemoved_clearTokens | eauto].
    + discriminate Hres.
    + split; [apply tokensRemoved_clearTokens | eauto].
  - intros st o reason Hr r. subst r.
    rewrite (step_AwaitResumed_rejected _ _ _ Hr).
    by rewrite awaitResumed_rejected.
Qed.

(** *** Success of a refresh *)

Lemma postSettled_fulfilled st o a rt :
  refresher st = Some {| originalRequest := o; awaited := Pending |} →
  let r := step st (PostSettled (PostFulfilled (Data a rt))) in
  cookies (after r) !! ACCESS_TOKEN_KEY props =
    Some {| value := a; options := mergeOptions defaultSetOptions noOptions |} ∧
  getAccessToken (after r) = a ∧
  getRefreshToken (after r) = (if truthy rt then rt else getRefreshToken st) ∧
  (truthy rt = false →
     cookies (after r) !! REFRESH_TOKEN_KEY props =
     cookies st !! REFRESH_TOKEN_KEY props) ∧
  emitted r = [] ∧
  isRefreshing (after r) = isRefreshing st ∧
  failedQueue (after r) = failedQueue st ∧
  refresher (after r) = Some {| originalRequest := o; awaited := Fulfilled a |}.
Proof.
  intros Hr r. subst r.
  rewrite (step_PostSettled_pending _ _ _ Hr). simpl.
  destruct (truthy rt) eqn:Hrt; simpl.
  - split; [|split; [|split; [|split]]]; try done.
    + rewrite lookup_insert_ne by (apply not_eq_sym, key_ne).
      apply lookup_insert_eq.
    + change (getAccessToken (setRefreshToken rt (setAccessToken a st)) = a).
      by rewrite getAccessToken_setRefreshToken, getAccessToken_setAccessToken.
    + change (getRefreshToken (setRefreshToken rt (setAccessToken a st)) = rt).
      apply getRefreshToken_setRefreshToken.
  - split; [|split; [|split; [|split]]]; try done.
    + apply lookup_insert_eq.
    + change (getAccessToken (setAccessToken a st) = a).
      apply getAccessToken_setAccessToken.
    + change (getRefreshToken (setAccessToken a st) = getRefreshToken st).
      apply getRefreshToken_setAccessToken.
    + intros _. by rewrite lookup_insert_ne by apply key_ne.
Qed.

Lemma awaitResumed_replays st o a :
  refresher st = Some {| originalRequest := o; awaited := Fulfilled a |} →
  getAccessToken st = a →
  emitted (step st AwaitResumed) =
    Dispatch (withAuthorization ("Bearer " +:+ template a) o) ::
    (Dispatch ∘ withAuthorization ("Bearer " +:+ template a) <$> failedQueue st).
Proof.
  intros Hr Ha.
  rewrite (step_AwaitResumed_fulfilled _ _ _ Hr).
  rewrite awaitResumed_fulfilled. simpl.
  unfold instance. rewrite <- Ha at 1. rewrite requestInterceptor_bearer, Ha.
  f_equal. apply list_fmap_ext. intros i c _. simpl.
  rewrite <- Ha. rewrite requestInterceptor_bearer. by rewrite Ha.
Qed.

Lemma run_settleCycle st o result late :
  consistent st →
  refresher st = Some {| originalRequest := o; awaited := Pending |} →
  Forall eligible late →
  let st1 := after (step st (PostSettled result)) in
  run st (settleCycle result late) =
    (after (step (withFailedQueue (failedQueue st ++ late) st1) AwaitResumed),
     emitted (step (withFailedQueue (failedQueue st ++ late) st1) AwaitResumed)).
Proof.
  intros [_ Hc] Hr Hlate st1. rewrite Hr in Hc. destruct Hc as [Hbusy _].
  unfold settleCycle.
  change (run st (?e :: ?evs)) with
    (let '(s1, out1) := step st e in
     let '(s2, out2) := run s1 evs in (s2, out1 ++ out2)).
  subst st1. rewrite (step_PostSettled_pending _ _ _ Hr).
  set (st1 := suspend o _ _).
  assert (Hbusy1 : isRefreshing st1 = true).
  { subst st1. destruct result as [[|a rt]|status]; simpl; try done.
    by destruct (truthy rt). }
  assert (Hq1 : failedQueue st1 = failedQueue st).
  { subst st1. destruct result as [[|a rt]|status]; simpl; try done.
    by destruct (truthy rt). }
  rewrite run_app, run_queue by done. rewrite Hq1.
  cbn [run after emitted fst snd].
  destruct (step (withFailedQueue (failedQueue st ++ late) st1) AwaitResumed)
    as [st2 out2].
  simpl. by rewrite app_nil_r.
Qed.

(** C4.  When the POST is fulfilled with a body, the value of its
    [accessToken] field is written to the access-token entry whatever it is;
    the value of its [refreshToken] field is written to the refresh-token
    entry when it is truthy, and that entry is left as it was otherwise.
    When the handler resumes, the originating request and every request
    queued before then, in the order they were queued, are sent again with
    ["Bearer "] followed by the new access token as their Authorization
    header. *)
Theorem refresh_success_persists_and_replays (st : State) (o : Config)
    (a rt : jsval) (late : list Config) :
  consistent st →
  refresher st = Some {| originalRequest := o; awaited := Pending |} →
  Forall eligible late →
  let settled := step st (PostSettled (PostFulfilled (Data a rt))) in
  let r := run st (settleCycle (PostFulfilled (Data a rt)) late) in
  let replayed c := withAuthorization ("Bearer " +:+ template a) c in
  cookies (after settled) !! ACCESS_TOKEN_KEY props =
    Some {| value := a; options := mergeOptions defaultSetOptions noOptions |} ∧
  (truthy rt = true → getRefreshToken (after settled) = rt) ∧
  (truthy rt = false →
     cookies (after settled) !! REFRESH_TOKEN_KEY props =
     cookies st !! REFRESH_TOKEN_KEY props) ∧
  cookies (after r) = cookies (after settled) ∧
  emitted r = Dispatch (replayed o) :: (Dispatch ∘ replayed <$> failedQueue st ++ late) ∧
  ∀ c, headers (replayed c) !! "Authorization" = Some ("Bearer " +:+ template a) ∧
       url (replayed c) = url c.
Proof.
  intros Hc Hr Hlate settled r replayed.
  destruct (postSettled_fulfilled st o a rt Hr)
    as (Hacc & Hget & Hrefresh & Hkeep & _ & _ & _ & Hr1).
  fold settled in Hacc, Hget, Hrefresh, Hkeep, Hr1.
  split; [exact Hacc|]. split; [|split; [exact Hkeep|]].
  { intros Hrt. by rewrite Hrefresh, Hrt. }
  subst r. rewrite (run_settleCycle st o _ late Hc Hr Hlate).
  fold settled. cbn [after emitted fst snd].
  set (st1 := withFailedQueue (failedQueue st ++ late) (after settled)).
  assert (Hr2 : refresher st1 = Some {| originalRequest := o; awaited := Fulfilled a |})
    by exact Hr1.
  assert (Hget2 : getAccessToken st1 = a) by exact Hget.
  split; [|split].
  - rewrite (step_AwaitResumed_fulfilled _ _ _ Hr2).
    by rewrite awaitResumed_fulfilled.
  - change (snd (step st1 AwaitResumed)) with (emitted (step st1 AwaitResumed)).
    by rewrite (awaitResumed_replays st1 o a Hr2 Hget2).
  - intros c. split; [apply lookup_insert_eq | done].
Qed.

Lemma postSettled_outcome st o result :
  refresher st = Some {| originalRequest := o; awaited := Pending |} →
  let r := step st (PostSettled result) in
  match result with
  | PostFulfilled (Data a rt) =>
      refresher (after r) = Some {| originalRequest := o; awaited := Fulfilled a |} ∧
      getAccessToken (after r) = a ∧
      getRefreshToken (after r) = (if truthy rt then rt else getRefreshToken st)
  | PostFulfilled NoData =>
      tokensRemoved props (after r) ∧
      refresher (after r) = Some {| originalRequest := o; awaited := Rejected TypeError |}
  | PostRejected status =>
      tokensRemoved props (after r) ∧
      refresher (after r) =
        Some {| originalRequest := o; awaited := Rejected (RefreshCallFailure status) |}
  end.
Proof.
  intros Hr r. destruct result as [[|a rt]|status].
  - subst r. rewrite (step_PostSettled_pending _ _ _ Hr).
    split; [apply tokensRemoved_clearTokens | done].
  - destruct (postSettled_fulfilled st o a rt Hr) as (_ & Hget & Hrt & _ & _ & _ & _ & Hr1).
    by repeat split.
  - subst r. rewrite (step_PostSettled_pending _ _ _ Hr).
    split; [apply tokensRemoved_clearTokens | done].
Qed.

(** C2 (amended).  The refresh attempt fails, with both token entries
    removed and the awaited promise rejected with the reason, when the POST is
    rejected and when the response has no body to read.  A response with a
    body is taken as a success whatever the body holds: the attempt resolves
    with the value of the [accessToken] field, that value is what the
    access-token entry then holds, and the refresh-token entry is kept or
    replaced, not removed. *)
Theorem refresh_failure_detection (st : State) (o : Config) (result : PostResult) :
  refresher st = Some {| originalRequest := o; awaited := Pending |} →
  let r := step st (PostSettled result) in
  match result with
  | PostFulfilled (Data a rt) =>
      refresher (after r) = Some {| originalRequest := o; awaited := Fulfilled a |} ∧
      getAccessToken (after r) = a ∧
      getRefreshToken (after r) = (if truthy rt then rt else getRefreshToken st)
  | PostFulfilled NoData =>
      tokensRemoved props (after r) ∧
      refresher (after r) = Some {| originalRequest := o; awaited := Rejected TypeError |}
  | PostRejected status =>
      tokensRemoved props (after r) ∧
      refresher (after r) =
        Some {| originalRequest := o; awaited := Rejected (RefreshCallFailure status) |}
  end.
Proof. apply postSettled_outcome. Qed.

(** *** A second 401 on a request that was sent again *)

Lemma requestInterceptor_url st c : url (requestInterceptor st c) = url c.
Proof. unfold requestInterceptor. by destruct (truthy (getAccessToken st)). Qed.

Lemma requestInterceptor_retry st c : _retry (requestInterceptor st c) = _retry c.
Proof. unfold requestInterceptor. by destruct (truthy (getAccessToken st)). Qed.

Lemma eligible_entersRefreshProtocol st c :
  eligible c →
  entersRefreshProtocol (responseRejected (unauthorized c) st) c st.
Proof.
  intros Hc. unfold entersRefreshProtocol.
  destruct (isRefreshing st) eqn:Hbusy.
  - by rewrite responseRejected_busy.
  - rewrite responseRejected_idle by done. unfold handleTokenRefresh.
    destruct (negb (truthy (getRefreshToken (withIsRefreshing true st))));
      simpl; eauto.
Qed.

(** *** Concurrent 401s *)

Lemma refreshCalls_fmap_Dispatch (f : Config → Config) cs :
  refreshCalls (Dispatch ∘ f <$> cs) = 0.
Proof. unfold refreshCalls. induction cs as [|c cs IH]; [done|]. simpl. exact IH. Qed.

Lemma refreshCalls_fmap_Rejection reason cs :
  refreshCalls ((λ c, Rejection c reason) <$> cs) = 0.
Proof. unfold refreshCalls. induction cs as [|c cs IH]; [done|]. simpl. exact IH. Qed.

(** The first of the failures starts the refresh, the others queue behind it. *)
Lemma run_concurrent_failures st c cs :
  consistent st → refresher st = None → eligible c → Forall eligible cs →
  run st (ResponseRejected ∘ unauthorized <$> c :: cs) =
    (withFailedQueue cs
       (after (responseRejected (unauthorized c) st)),
     emitted (responseRejected (unauthorized c) st)) ∧
  after (responseRejected (unauthorized c) st) =
    (if truthy (getRefreshToken st)
     then suspend (withRetry c) Pending (withIsRefreshing true st)
     else suspend (withRetry c) (Rejected NoRefreshToken)
            (clearTokens (withIsRefreshing true st))) ∧
  emitted (responseRejected (unauthorized c) st) =
    (if truthy (getRefreshToken st)
     then [RefreshCall (apiRefreshUrl props) (getRefreshToken st)]
     else []).
Proof.
  intros [_ Hc] Hr Helig Hcs. rewrite Hr in Hc. destruct Hc as [Hidle Hnil].
  assert (Hfirst : responseRejected (unauthorized c) st =
    if truthy (getRefreshToken st)
    then (suspend (withRetry c) Pending (withIsRefreshing true st),
          [RefreshCall (apiRefreshUrl props) (getRefreshToken st)])
    else (suspend (withRetry c) (Rejected NoRefreshToken)
            (clearTokens (withIsRefreshing true st)), [])).
  { rewrite responseRejected_idle by done. unfold handleTokenRefresh.
    replace (getRefreshToken (withIsRefreshing true st))
      with (getRefreshToken st) by done.
    by destruct (truthy (getRefreshToken st)). }
  split; [|split].
  - change (run st (ResponseRejected ∘ unauthorized <$> c :: cs)) with
      (let '(s1, out1) := responseRejected (unauthorized c) st in
       let '(s2, out2) := run s1 (ResponseRejected ∘ unauthorized <$> cs) in
       (s2, out1 ++ out2)).
    rewrite Hfirst.
    destruct (truthy (getRefreshToken st));
      (rewrite run_queue by done); simpl; by rewrite Hnil.
  - rewrite Hfirst. by destruct (truthy (getRefreshToken st)).
  - rewrite Hfirst. by destruct (truthy (getRefreshToken st)).
Qed.

Lemma after_pair {E} (st : State) (out : E) : after (st, out) = st.
Proof. reflexivity. Qed.

Lemma emitted_pair {E} (st : State) (out : E) : emitted (st, out) = out.
Proof. reflexivity. Qed.

Lemma run_two st ev1 ev2 :
  run st [ev1; ev2] =
    (after (step (after (step st ev1)) ev2),
     emitted (step st ev1) ++ emitted (step (after (step st ev1)) ev2)).
Proof.
  simpl. destruct (step st ev1) as [s1 out1]. simpl.
  destruct (step s1 ev2) as [s2 out2]. simpl. by rewrite app_nil_r.
Qed.

(** The POST settles and the handler resumes: the refreshing request and the
    queue are answered alike, by what the POST settled with. *)
Lemma run_settle_pending s o result :
  refresher s = Some {| originalRequest := o; awaited := Pending |} →
  let r := run s [PostSettled result; AwaitResumed] in
  isRefreshing (after r) = false ∧
  failedQueue (after r) = [] ∧
  emitted r =
    match result with
    | PostFulfilled (Data a _) =>
        Dispatch ∘ withAuthorization ("Bearer " +:+ template a) <$> o :: failedQueue s
    | PostFulfilled NoData =>
        (λ q, Rejection q TypeError) <$> o :: failedQueue s
    | PostRejected status =>
        (λ q, Rejection q (RefreshCallFailure status)) <$> o :: failedQueue s
    end.
Proof.
  intros Hr r. subst r. rewrite run_two, after_pair, emitted_pair.
  pose proof (postSettled_outcome s o result Hr) as Hres. cbv zeta in Hres.
  assert (Hq : failedQueue (after (step s (PostSettled result))) = failedQueue s).
  { rewrite (step_PostSettled_pending _ _ _ Hr).
    destruct result as [[|a rt]|status]; simpl; try done.
    by destruct (truthy rt). }
  assert (Hem : emitted (step s (PostSettled result)) = []).
  { by rewrite (step_PostSettled_pending _ _ _ Hr). }
  rewrite Hem. cbn [app]. rewrite <- Hq.
  set (s2 := after (step s (PostSettled result))) in *.
  destruct result as [[|a rt]|status].
  - destruct Hres as [_ Hr2].
    by rewrite (step_AwaitResumed_rejected _ _ _ Hr2), awaitResumed_rejected.
  - destruct Hres as (Hr2 & Hget & _).
    pose proof (awaitResumed_replays s2 o a Hr2 Hget) as Hout.
    rewrite Hout.
    by rewrite (step_AwaitResumed_fulfilled _ _ _ Hr2), awaitResumed_fulfilled.
  - destruct Hres as [_ Hr2].
    by rewrite (step_AwaitResumed_rejected _ _ _ Hr2), awaitResumed_rejected.
Qed.

(** C1 (amended).  When [N >= 1] eligible requests fail with 401 one after
    the other in a client with no refresh in flight, the first starts the one
    refresh attempt and the other [N - 1] are queued in their order.  The
    attempt calls the refresh endpoint once when a non-empty refresh token is
    stored and not at all otherwise.  When the attempt has settled and the
    handler resumes, no further call goes out, the flag and the queue are
    reset, and the [N] requests are answered together by the outcome of that
    one attempt: with no refresh token stored all are rejected for the want
    of it; after a response with a body all are sent again with ["Bearer "]
    and the [accessToken] of that body as Authorization header; after a
    response without a body or a rejected POST all are rejected with that
    failure. *)
Theorem single_flight_refresh (st : State) (c : Config) (cs : list Config) :
  consistent st → refresher st = None → eligible c → Forall eligible cs →
  let r1 := run st (ResponseRejected ∘ unauthorized <$> c :: cs) in
  refreshCalls (emitted r1) = (if truthy (getRefreshToken st) then 1 else 0) ∧
  isRefreshing (after r1) = true ∧
  failedQueue (after r1) = cs ∧
  refresher (after r1) =
    Some {| originalRequest := withRetry c;
            awaited := if truthy (getRefreshToken st)
                       then Pending else Rejected NoRefreshToken |} ∧
  ∀ result,
    let r2 := run (after r1) [PostSettled result; AwaitResumed] in
    refreshCalls (emitted r2) = 0 ∧
    isRefreshing (after r2) = false ∧
    failedQueue (after r2) = [] ∧
    emitted r2 =
      if truthy (getRefreshToken st) then
        match result with
        | PostFulfilled (Data a _) =>
            Dispatch ∘ withAuthorization ("Bearer " +:+ template a)
              <$> withRetry c :: cs
        | PostFulfilled NoData =>
            (λ q, Rejection q TypeError) <$> withRetry c :: cs
        | PostRejected status =>
            (λ q, Rejection q (RefreshCallFailure status)) <$> withRetry c :: cs
        end
      else (λ q, Rejection q NoRefreshToken) <$> withRetry c :: cs.
Proof.
  intros Hc Hr Helig Hcs r1.
  destruct (run_concurrent_failures st c cs Hc Hr Helig Hcs) as (Hrun & Hst & Hout).
  subst r1. rewrite Hrun, !after_pair, emitted_pair.
  rewrite Hout. clear Hrun Hout.
  destruct (truthy (getRefreshToken st)) eqn:Hrt; rewrite Hst.
  - (* the POST went out *)
    split; [done|]. split; [done|]. split; [done|]. split; [done|].
    intros result.
    set (s1 := withFailedQueue cs
                 (suspend (withRetry c) Pending (withIsRefreshing true st))).
    assert (Hr1 : refresher s1 =
                    Some {| originalRequest := withRetry c; awaited := Pending |})
      by done.
    destruct (run_settle_pending s1 (withRetry c) result Hr1)
      as (Hflag & Hqueue & Hem).
    split; [|split; [exact Hflag | split; [exact Hqueue | exact Hem]]].
    rewrite Hem. destruct result as [[|a rt]|status].
    + apply (refreshCalls_fmap_Rejection TypeError (withRetry c :: cs)).
    + apply (refreshCalls_fmap_Dispatch
               (withAuthorization ("Bearer " +:+ template a)) (withRetry c :: cs)).
    + apply (refreshCalls_fmap_Rejection (RefreshCallFailure status)
               (withRetry c :: cs)).
  - (* no refresh token: the attempt has failed already *)
    split; [done|]. split; [done|]. split; [done|]. split; [done|].
    intros result. rewrite run_two.
    set (s1 := withFailedQueue cs
                 (suspend (withRetry c) (Rejected NoRefreshToken)
                    (clearTokens (withIsRefreshing true st)))).
    assert (Hr1 : refresher s1 =
                    Some {| originalRequest := withRetry c;
                            awaited := Rejected NoRefreshToken |}) by done.
    assert (Hnoop : step s1 (PostSettled result) = (s1, [])).
    { unfold step. by rewrite Hr1. }
    rewrite Hnoop. rewrite !after_pair, !emitted_pair. cbn [app].
    rewrite (step_AwaitResumed_rejected _ _ _ Hr1), awaitResumed_rejected.
    rewrite after_pair, emitted_pair.
    split; [|by repeat split].
    apply (refreshCalls_fmap_Rejection NoRefreshToken (withRetry c :: cs)).
Qed.

(** C10.  An eligible request [o] fails with 401 in an idle client that has a
    refresh token: the handler marks it as a retry and starts the refresh.
    Further eligible requests fail with 401 before the POST settles ([cs]) or
    before the handler resumes ([late]); they are queued as they came,
    without the mark.  When the refresh has succeeded, each queued request
    goes out again still without the mark, so a 401 on it enters the refresh
    protocol again in whatever state the client then is: it is queued behind
    the refresh in flight, or starts one.  The request of the refreshing
    handler goes out with the mark, and a 401 on it is handed to the caller
    with the state unchanged. *)
Theorem queued_replay_reenters_protocol (st : State) (o c : Config)
    (cs late : list Config) (a rt : jsval) :
  consistent st → refresher st = None →
  truthy (getRefreshToken st) = true →
  eligible o → Forall eligible cs → Forall eligible late →
  c ∈ cs ++ late →
  let r1 := run st (ResponseRejected ∘ unauthorized <$> o :: cs) in
  let out :=
    emitted (run (after r1) (settleCycle (PostFulfilled (Data a rt)) late)) in
  let replayed q := withAuthorization ("Bearer " +:+ template a) q in
  refresher (after r1) =
    Some {| originalRequest := withRetry o; awaited := Pending |} ∧
  failedQueue (after r1) = cs ∧
  out = Dispatch (replayed (withRetry o)) :: (Dispatch ∘ replayed <$> cs ++ late) ∧
  (Dispatch (replayed c) ∈ tail out ∧
   url (replayed c) = url c ∧ _retry (replayed c) = false ∧
   ∀ st', entersRefreshProtocol
            (responseRejected (unauthorized (replayed c)) st') (replayed c) st') ∧
  (head out = Some (Dispatch (replayed (withRetry o))) ∧
   url (replayed (withRetry o)) = url o ∧
   _retry (replayed (withRetry o)) = true ∧
   ∀ st', responseRejected (unauthorized (replayed (withRetry o))) st' =
            (st', [Rejection (replayed (withRetry o))
                     (ResponseFailure (unauthorized (replayed (withRetry o))))])).
Proof.
  intros Hc Hr Hrt Ho Hcs Hlate Hin r1 out replayed.
  destruct (run_concurrent_failures st o cs Hc Hr Ho Hcs) as (Hrun & Hst & _).
  rewrite Hrt in Hst.
  assert (Hc1 : consistent (after r1)) by apply consistent_run, Hc.
  assert (Hr1 : refresher (after r1) =
                  Some {| originalRequest := withRetry o; awaited := Pending |}).
  { subst r1. by rewrite Hrun, after_pair, Hst. }
  assert (Hq1 : failedQueue (after r1) = cs).
  { subst r1. by rewrite Hrun, after_pair. }
  assert (Hout : out =
            Dispatch (replayed (withRetry o)) :: (Dispatch ∘ replayed <$> cs ++ late)).
  { subst out.
    rewrite (run_settleCycle (after r1) (withRetry o) _ late Hc1 Hr1 Hlate).
    rewrite emitted_pair, Hq1.
    destruct (postSettled_fulfilled (after r1) (withRetry o) a rt Hr1)
      as (_ & Hget & _ & _ & _ & _ & _ & Hr2).
    set (s2 := withFailedQueue (cs ++ late) _).
    assert (Hr3 : refresher s2 = Some {| originalRequest := withRetry o;
                                         awaited := Fulfilled a |}) by exact Hr2.
    assert (Hget3 : getAccessToken s2 = a) by exact Hget.
    exact (awaitResumed_replays s2 (withRetry o) a Hr3 Hget3). }
  assert (Helig : eligible c).
  { assert (Hall : Forall eligible (cs ++ late)) by (by apply Forall_app).
    eapply Forall_forall in Hall; eauto. }
  split; [exact Hr1|]. split; [exact Hq1|]. split; [exact Hout|].
  rewrite Hout. cbn [tail head]. split.
  - split; [|split; [done|split; [apply Helig|]]].
    + apply list_elem_of_fmap. by exists c.
    + intros st'. apply eligible_entersRefreshProtocol.
      split; [apply Helig | apply Helig].
  - split; [done|]. split; [done|]. split; [done|].
    intros st'. by apply responseRejected_marked.
Qed.

(** ** Further properties of the class *)

(** *** Token accessors *)

(** X1.  Reading back a token that was written gives the written value; writing
    one token leaves the other as it was; a second write replaces the
    first. *)
Theorem token_write_read (token other : jsval) (st : State) :
  getAccessToken (setAccessToken token st) = token ∧
  getRefreshToken (setRefreshToken token st) = token ∧
  getRefreshToken (setAccessToken token st) = getRefreshToken st ∧
  getAccessToken (setRefreshToken token st) = getAccessToken st ∧
  setAccessToken token (setAccessToken other st) = setAccessToken token st ∧
  setRefreshToken token (setRefreshToken other st) = setRefreshToken token st.
Proof.
  split; [apply getAccessToken_setAccessToken|].
  split; [apply getRefreshToken_setRefreshToken|].
  split; [apply getRefreshToken_setAccessToken|].
  split; [apply getAccessToken_setRefreshToken|].
  unfold setAccessToken, setRefreshToken, cookiesSet, withCookies. simpl.
  by rewrite !insert_insert_eq.
Qed.

(** X2.  [clearTokens] leaves both reads at [undefined], whatever was written
    before; it touches no cookie under another name; clearing twice is
    clearing once. *)
Theorem clearTokens_removes_only_tokens (st : State) :
  getAccessToken (clearTokens st) = JUndefined ∧
  getRefreshToken (clearTokens st) = JUndefined ∧
  (∀ name, name ≠ ACCESS_TOKEN_KEY props → name ≠ REFRESH_TOKEN_KEY props →
     cookies (clearTokens st) !! name = cookies st !! name) ∧
  clearTokens (clearTokens st) = clearTokens st.
Proof.
  destruct (tokensRemoved_get _ (tokensRemoved_clearTokens st)) as [Ha Hr].
  split; [exact Ha|]. split; [exact Hr|]. split.
  - intros name Hna Hnr. unfold clearTokens, cookiesRemove. simpl.
    by rewrite !lookup_delete_ne.
  - unfold clearTokens, cookiesRemove, withCookies. simpl. f_equal.
    apply map_eq. intros name.
    destruct (decide (name = REFRESH_TOKEN_KEY props)) as [->|Hnr].
    { by rewrite !lookup_delete_eq. }
    rewrite !(lookup_delete_ne _ (REFRESH_TOKEN_KEY props)) by done.
    destruct (decide (name = ACCESS_TOKEN_KEY props)) as [->|Hna].
    { by rewrite !lookup_delete_eq. }
    by rewrite !lookup_delete_ne.
Qed.

(** X3.  Every token cookie is written with the options the jar got at
    construction: path ["/"] and the secure flag and domain that
    [getCookieSetOptions] computed.  The refresh token gets a lifetime of
    604800 seconds on top, the access token gets none. *)
Theorem token_write_options (token : jsval) (st : State) :
  (∃ c, cookies (setAccessToken token st) !! ACCESS_TOKEN_KEY props = Some c ∧
        value c = token ∧ options c = defaultSetOptions ∧
        path (options c) = Some "/" ∧ maxAge (options c) = None) ∧
  (∃ c, cookies (setRefreshToken token st) !! REFRESH_TOKEN_KEY props = Some c ∧
        value c = token ∧ path (options c) = Some "/" ∧
        secure (options c) = secure defaultSetOptions ∧
        domain (options c) = domain defaultSetOptions ∧
        maxAge (options c) = Some 604800%N).
Proof.
  split.
  - eexists. split; [apply lookup_insert_eq|].
    unfold defaultSetOptions, getCookieSetOptions, mergeOptions. simpl.
    by repeat split.
  - eexists. split; [apply lookup_insert_eq|].
    unfold defaultSetOptions, getCookieSetOptions, mergeOptions. simpl.
    by repeat split.
Qed.

(** *** Request interceptor, continued *)

(** X6.  The interceptor changes nothing of a config but its Authorization header:
    the URL, the retry mark and every other header stay.  With a truthy token
    stored the header is set whatever the caller had put there.  A config that
    has passed the interceptor passes it again unchanged. *)
Theorem requestInterceptor_touches_only_authorization (st : State) (c : Config) :
  url (requestInterceptor st c) = url c ∧
  _retry (requestInterceptor st c) = _retry c ∧
  (∀ name, name ≠ "Authorization" →
     headers (requestInterceptor st c) !! name = headers c !! name) ∧
  (truthy (getAccessToken st) = true →
     headers (requestInterceptor st c) !! "Authorization" =
       Some ("Bearer " +:+ template (getAccessToken st))) ∧
  requestInterceptor st (requestInterceptor st c) = requestInterceptor st c.
Proof.
  split; [apply requestInterceptor_url|].
  split; [apply requestInterceptor_retry|].
  unfold requestInterceptor.
  destruct (truthy (getAccessToken st)) eqn:Ht; rewrite ?Ht.
  - split; [|split].
    + intros name Hne. simpl. by rewrite lookup_insert_ne.
    + intros _. simpl. apply lookup_insert_eq.
    + apply withAuthorization_idem.
  - by repeat split.
Qed.

(** *** Response interceptor, continued *)

Lemma unauthorized_eta error :
  status error = Some 401 → error = unauthorized (config error).
Proof. destruct error as [c s]. simpl. by intros ->. Qed.

(** X7.  A failed response is handed back to the caller as it came, with the
    client's state untouched, exactly when it is not a 401 of an eligible
    request: any other status, no response at all, a request already marked
    as a retry, or the login path. *)
Theorem response_passthrough_iff (st : State) (error : AxiosError) :
  step st (ResponseRejected error) =
    (st, [Rejection (config error) (ResponseFailure error)]) ↔
  ¬ (status error = Some 401 ∧ eligible (config error)).
Proof.
  change (step st (ResponseRejected error)) with (responseRejected error st).
  split.
  - intros Hpass [Hstatus Helig].
    rewrite (unauthorized_eta _ Hstatus) in Hpass. simpl in Hpass.
    destruct (isRefreshing st) eqn:Hbusy.
    + rewrite responseRejected_busy in Hpass by done. by inversion Hpass.
    + rewrite responseRejected_idle in Hpass by done.
      unfold handleTokenRefresh in Hpass.
      destruct (negb (truthy (getRefreshToken (withIsRefreshing true st))));
        by inversion Hpass.
  - intros Hnot. unfold responseRejected.
    case_bool_decide as Hstatus; simpl; [|done].
    destruct (_retry (config error)) eqn:Hretry; simpl; [done|].
    destruct (String.eqb (url (config error)) "/api/auth/login") eqn:Hurl; [done|].
    destruct Hnot. split; [done|]. split; [done|]. by apply eqb_false_ne.
Qed.

(** X8.  With no refresh in flight and a truthy refresh token stored, an eligible
    401 starts the refresh: one POST to [props.apiRefreshUrl] carrying the
    stored refresh token; the flag goes up, the request gets the retry mark,
    and the jar is not written. *)
Theorem refresh_start (st : State) (c : Config) :
  isRefreshing st = false → eligible c → truthy (getRefreshToken st) = true →
  let r := step st (ResponseRejected (unauthorized c)) in
  emitted r = [RefreshCall (apiRefreshUrl props) (getRefreshToken st)] ∧
  cookies (after r) = cookies st ∧
  isRefreshing (after r) = true ∧
  failedQueue (after r) = failedQueue st ∧
  refresher (after r) =
    Some {| originalRequest := withRetry c; awaited := Pending |}.
Proof.
  intros Hidle Hc Ht r. subst r.
  change (step st (ResponseRejected (unauthorized c)))
    with (responseRejected (unauthorized c) st).
  rewrite responseRejected_idle by done. unfold handleTokenRefresh.
  replace (getRefreshToken (withIsRefreshing true st))
    with (getRefreshToken st) by done.
  by rewrite Ht.
Qed.

(** *** Counting over arbitrary runs *)

Lemma refreshCalls_app out1 out2 :
  refreshCalls (out1 ++ out2) = refreshCalls out1 + refreshCalls out2.
Proof. unfold refreshCalls. by rewrite filter_app, length_app. Qed.

Lemma answers_app out1 out2 :
  answers (out1 ++ out2) = answers out1 + answers out2.
Proof. unfold answers. by rewrite filter_app, length_app. Qed.

Lemma answers_all out :
  Forall (λ e, isAnswer e = true) out →
  refreshCalls out = 0 ∧ answers out = length out.
Proof.
  unfold refreshCalls, answers.
  induction 1 as [|e out He _ [IH1 IH2]]; [done|].
  rewrite !filter_cons. destruct e; try discriminate He; simpl.
  - by rewrite IH2.
  - by rewrite IH2.
Qed.

Lemma awaitResumed_answers o outcome st :
  Forall (λ e, isAnswer e = true) (emitted (awaitResumed o outcome st)) ∧
  length (emitted (awaitResumed o outcome st)) = S (length (failedQueue st)).
Proof.
  destruct outcome as [reason|token].
  - rewrite awaitResumed_rejected. simpl. split.
    + constructor; [done|]. apply Forall_fmap, Forall_true. done.
    + by rewrite length_fmap.
  - rewrite awaitResumed_fulfilled. simpl. split.
    + constructor; [done|]. apply Forall_fmap, Forall_true. done.
    + by rewrite length_fmap.
Qed.

(** What one failed response does to the counters, in a consistent state. *)
Lemma responseRejected_answers st error :
  consistent st →
  answers (emitted (responseRejected error st)) +
    outstanding (after (responseRejected error st)) = S (outstanding st).
Proof.
  intros [_ Hc]. unfold responseRejected.
  destruct (bool_decide (status error = Some 401) && negb (_retry (config error))).
  2:{ unfold answers, outstanding. simpl. lia. }
  destruct (String.eqb (url (config error)) "/api/auth/login").
  { unfold answers, outstanding. simpl. lia. }
  destruct (isRefreshing st) eqn:Hbusy.
  - unfold answers, outstanding. simpl. rewrite length_app. simpl. lia.
  - destruct (refresher st) as [s|] eqn:Hr; [by destruct Hc|].
    destruct Hc as [_ Hnil]. unfold handleTokenRefresh.
    destruct (negb (truthy (getRefreshToken (withIsRefreshing true st))));
      unfold answers, outstanding; simpl; by rewrite Hr, Hnil.
Qed.

Lemma responseRejected_refreshCalls st error :
  consistent st →
  (refreshCalls (emitted (responseRejected error st)) +
     startable (after (responseRejected error st)) ≤ startable st)%nat.
Proof.
  intros [_ Hc]. unfold responseRejected.
  destruct (bool_decide (status error = Some 401) && negb (_retry (config error))).
  2:{ unfold refreshCalls. simpl. lia. }
  destruct (String.eqb (url (config error)) "/api/auth/login").
  { unfold refreshCalls. simpl. lia. }
  destruct (isRefreshing st) eqn:Hbusy.
  - unfold refreshCalls, startable. simpl. lia.
  - destruct (refresher st) as [s|] eqn:Hr; [by destruct Hc|].
    unfold handleTokenRefresh.
    destruct (negb (truthy (getRefreshToken (withIsRefreshing true st))));
      unfold refreshCalls, startable; simpl; rewrite Hr; simpl; lia.
Qed.

Lemma step_answers st ev :
  consistent st →
  answers (emitted (step st ev)) + outstanding (after (step st ev)) =
  outstanding st + (if isCall ev then 1 else 0).
Proof.
  intros Hc. destruct ev as [t|t| |c|error|result|].
  - unfold answers, outstanding. simpl. lia.
  - unfold answers, outstanding. simpl. lia.
  - unfold answers, outstanding. simpl. lia.
  - unfold answers, outstanding. simpl. lia.
  - change (step st (ResponseRejected error)) with (responseRejected error st).
    rewrite responseRejected_answers by done. simpl. lia.
  - destruct (refresher st) as [[o [| |]]|] eqn:Hr;
      try (unfold step; rewrite Hr; unfold answers; simpl; lia).
    rewrite (step_PostSettled_pending _ _ _ Hr).
    assert (failedQueue (fst (handleTokenRefreshResumed result st)) =
            failedQueue st) as Hq.
    { unfold handleTokenRefreshResumed.
      destruct result as [[|a rt]|status]; try done.
      by destruct (truthy rt). }
    unfold answers, outstanding. simpl. rewrite Hq, Hr. lia.
  - destruct (refresher st) as [[o [|token|reason]]|] eqn:Hr;
      try (unfold step; rewrite Hr; unfold answers; simpl; lia).
    + rewrite (step_AwaitResumed_fulfilled _ _ _ Hr).
      destruct (awaitResumed_answers o (inr token) st) as [Hall Hlen].
      destruct (answers_all _ Hall) as [_ ->]. rewrite Hlen.
      rewrite awaitResumed_fulfilled. unfold outstanding. simpl. rewrite Hr. lia.
    + rewrite (step_AwaitResumed_rejected _ _ _ Hr).
      destruct (awaitResumed_answers o (inl reason) st) as [Hall Hlen].
      destruct (answers_all _ Hall) as [_ ->]. rewrite Hlen.
      rewrite awaitResumed_rejected. unfold outstanding. simpl. rewrite Hr. lia.
Qed.

Lemma step_refreshCalls st ev :
  consistent st →
  (refreshCalls (emitted (step st ev)) + startable (after (step st ev)) ≤
   startable st + (if isResume ev then 1 else 0))%nat.
Proof.
  intros Hc. destruct ev as [t|t| |c|error|result|].
  - unfold refreshCalls, startable. simpl. lia.
  - unfold refreshCalls, startable. simpl. lia.
  - unfold refreshCalls, startable. simpl. lia.
  - unfold refreshCalls, startable. simpl. lia.
  - change (step st (ResponseRejected error)) with (responseRejected error st).
    pose proof (responseRejected_refreshCalls st error Hc). simpl. lia.
  - destruct (refresher st) as [[o [| |]]|] eqn:Hr;
      try (unfold step; rewrite Hr; unfold refreshCalls, startable; simpl;
           rewrite ?Hr; lia).
    rewrite (step_PostSettled_pending _ _ _ Hr).
    unfold refreshCalls, startable. simpl. lia.
  - destruct (refresher st) as [[o [|token|reason]]|] eqn:Hr;
      try (unfold step; rewrite Hr; unfold refreshCalls, startable; simpl;
           rewrite ?Hr; lia).
    + rewrite (step_AwaitResumed_fulfilled _ _ _ Hr).
      destruct (awaitResumed_answers o (inr token) st) as [Hall _].
      destruct (answers_all _ Hall) as [-> _].
      rewrite awaitResumed_fulfilled. unfold startable. simpl. lia.
    + rewrite (step_AwaitResumed_rejected _ _ _ Hr).
      destruct (awaitResumed_answers o (inl reason) st) as [Hall _].
      destruct (answers_all _ Hall) as [-> _].
      rewrite awaitResumed_rejected. unfold startable. simpl. lia.
Qed.

Lemma calls_cons ev evs :
  calls (ev :: evs) = (if isCall ev then 1 else 0) + calls evs.
Proof.
  unfold calls. rewrite filter_cons. by destruct (isCall ev); case_decide.
Qed.

Lemma resumes_cons ev evs :
  resumes (ev :: evs) = (if isResume ev then 1 else 0) + resumes evs.
Proof.
  unfold resumes. rewrite filter_cons. by destruct (isResume ev); case_decide.
Qed.

Lemma run_cons st ev evs :
  run st (ev :: evs) =
    (after (run (after (step st ev)) evs),
     emitted (step st ev) ++ emitted (run (after (step st ev)) evs)).
Proof.
  simpl. destruct (step st ev) as [st1 out1]. simpl.
  by destruct (run st1 evs).
Qed.

(** X9.  From its construction on, whatever happens to it, the client keeps the
    flag and the suspended handler in step, holds queued requests only while
    a refresh is in flight, queues only eligible requests (never one to the
    login path, never one marked as a retry), and has marked the request it
    refreshes for. *)
Theorem reachable_states (evs : list Event) :
  let st := after (run initial evs) in
  (isRefreshing st = true ↔ refresher st ≠ None) ∧
  (isRefreshing st = false → failedQueue st = []) ∧
  Forall eligible (failedQueue st) ∧
  (∀ s, refresher st = Some s → _retry (originalRequest s) = true).
Proof.
  intros st. destruct (consistent_run evs initial consistent_initial) as [Hq Hc].
  fold st in Hq, Hc. destruct (refresher st) as [s|].
  - destruct Hc as [Hbusy Hmark]. split; [|split; [|split]]; try done.
    + by rewrite Hbusy.
    + by intros s' [= <-].
  - destruct Hc as [Hidle Hnil]. split; [|split; [|split]]; try done.
    rewrite Hidle. split; [discriminate | done].
Qed.

(** X10.  While a handler is suspended on a refresh, nothing that happens makes the
    client call the refresh endpoint.  Over any run from a consistent state
    the calls to the refresh endpoint are at most the resumptions of the
    refreshing handler in the run, plus one when the run starts with no
    refresh in flight. *)
Theorem refresh_calls_bounded (st : State) (evs : list Event) :
  consistent st →
  (∀ ev, refresher st ≠ None → refreshCalls (emitted (step st ev)) = 0) ∧
  (refreshCalls (emitted (run st evs)) ≤ startable st + resumes evs)%nat.
Proof.
  intros Hc. split.
  - intros ev Hr. destruct (isResume ev) eqn:Hev.
    + destruct ev; try discriminate Hev.
      destruct (refresher st) as [[o [|token|reason]]|] eqn:Hr'; try done.
      * unfold step. by rewrite Hr'.
      * rewrite (step_AwaitResumed_fulfilled _ _ _ Hr').
        by apply answers_all, awaitResumed_answers.
      * rewrite (step_AwaitResumed_rejected _ _ _ Hr').
        by apply answers_all, awaitResumed_answers.
    + pose proof (step_refreshCalls st ev Hc) as H. rewrite Hev in H.
      unfold startable in H at 2. destruct (refresher st); [lia | done].
  - enough (refreshCalls (emitted (run st evs)) + startable (after (run st evs))
            ≤ startable st + resumes evs)%nat by lia.
    revert st Hc. induction evs as [|ev evs IH]; intros st Hc.
    + unfold refreshCalls, resumes. simpl. lia.
    + rewrite run_cons, after_pair, emitted_pair, refreshCalls_app, resumes_cons.
      pose proof (step_refreshCalls st ev Hc).
      pose proof (IH _ (consistent_step st ev Hc)). lia.
Qed.

(** X11.  Over any run from a consistent state every request handed to the client
    (a new request, or a failed response) is answered once, by going out or
    by a rejection, or is still held in the queue or by the suspended
    handler: none is dropped and none is answered twice. *)
Theorem every_call_answered_once (st : State) (evs : list Event) :
  consistent st →
  answers (emitted (run st evs)) + outstanding (after (run st evs)) =
  outstanding st + calls evs.
Proof.
  revert st. induction evs as [|ev evs IH]; intros st Hc.
  - unfold answers, calls. simpl. lia.
  - rewrite run_cons, after_pair, emitted_pair, answers_app, calls_cons.
    pose proof (step_answers st ev Hc).
    pose proof (IH _ (consistent_step st ev Hc)). lia.
Qed.

(** *** What a finished refresh cycle leaves behind *)

Lemma settleCycle_state st o result late :
  consistent st →
  refresher st = Some {| originalRequest := o; awaited := Pending |} →
  Forall eligible late →
  let st1 := after (run st (settleCycle result late)) in
  cookies st1 = cookies (after (step st (PostSettled result))) ∧
  isRefreshing st1 = false ∧ failedQueue st1 = [] ∧ refresher st1 = None.
Proof.
  intros Hc Hr Hlate st1. subst st1.
  rewrite (run_settleCycle st o result late Hc Hr Hlate), after_pair.
  set (s := withFailedQueue _ _).
  pose proof (postSettled_outcome st o result Hr) as Hres. cbv zeta in Hres.
  destruct result as [[|a rt]|status].
  - destruct Hres as [_ Hr1].
    assert (Hr2 : refresher s = Some {| originalRequest := o;
                                        awaited := Rejected TypeError |}) by exact Hr1.
    by rewrite (step_AwaitResumed_rejected _ _ _ Hr2), awaitResumed_rejected.
  - destruct Hres as (Hr1 & _).
    assert (Hr2 : refresher s = Some {| originalRequest := o;
                                        awaited := Fulfilled a |}) by exact Hr1.
    by rewrite (step_AwaitResumed_fulfilled _ _ _ Hr2), awaitResumed_fulfilled.
  - destruct Hres as [_ Hr1].
    assert (Hr2 : refresher s =
                    Some {| originalRequest := o;
                            awaited := Rejected (RefreshCallFailure status) |})
      by exact Hr1.
    by rewrite (step_AwaitResumed_rejected _ _ _ Hr2), awaitResumed_rejected.
Qed.

Lemma getAccessToken_cookies st1 st2 :
  cookies st1 = cookies st2 → getAccessToken st1 = getAccessToken st2.
Proof. unfold getAccessToken, cookiesGet. by intros ->. Qed.

Lemma getRefreshToken_cookies st1 st2 :
  cookies st1 = cookies st2 → getRefreshToken st1 = getRefreshToken st2.
Proof. unfold getRefreshToken, cookiesGet. by intros ->. Qed.

Lemma no_refresh_token_cycle st c :
  isRefreshing st = false → failedQueue st = [] → eligible c →
  truthy (getRefreshToken st) = false →
  run st [ResponseRejected (unauthorized c); AwaitResumed] =
    (withRefresher None (clearTokens st),
     [Rejection (withRetry c) NoRefreshToken]).
Proof.
  intros Hidle Hnil Hc Ht. rewrite run_two.
  change (step st (ResponseRejected (unauthorized c)))
    with (responseRejected (unauthorized c) st).
  rewrite responseRejected_idle by done. unfold handleTokenRefresh.
  replace (getRefreshToken (withIsRefreshing true st))
    with (getRefreshToken st) by done.
  rewrite Ht. simpl negb. cbv iota. rewrite after_pair, emitted_pair.
  set (s := suspend _ _ _).
  assert (Hr : refresher s = Some {| originalRequest := withRetry c;
                                     awaited := Rejected NoRefreshToken |}) by done.
  rewrite (step_AwaitResumed_rejected _ _ _ Hr), awaitResumed_rejected.
  rewrite after_pair, emitted_pair. subst s. simpl. rewrite Hnil. simpl.
  f_equal. unfold withRefresher, withIsRefreshing, withFailedQueue. simpl.
  by rewrite Hnil, Hidle.
Qed.

(** X12.  After a refresh that failed (the POST was rejected, or its response had
    no body), the client is idle with both tokens gone.  The next request
    goes out as the caller made it, with no Authorization header added, and
    the next eligible 401 is rejected for want of a refresh token without a
    call to the refresh endpoint. *)
Theorem failed_refresh_forces_login (st : State) (o : Config)
    (result : PostResult) (late : list Config) (c : Config) :
  consistent st →
  refresher st = Some {| originalRequest := o; awaited := Pending |} →
  Forall eligible late →
  readable result = false →
  eligible c →
  let st1 := after (run st (settleCycle result late)) in
  tokensRemoved props st1 ∧
  isRefreshing st1 = false ∧
  emitted (step st1 (Request c)) = [Dispatch c] ∧
  emitted (run st1 [ResponseRejected (unauthorized c); AwaitResumed]) =
    [Rejection (withRetry c) NoRefreshToken].
Proof.
  intros Hc Hr Hlate Hres Helig st1.
  destruct (settleCycle_state st o result late Hc Hr Hlate)
    as (Hjar & Hidle & Hnil & _).
  fold st1 in Hjar, Hidle, Hnil.
  assert (Hrm : tokensRemoved props st1).
  { unfold tokensRemoved. rewrite Hjar.
    pose proof (postSettled_outcome st o result Hr) as H. cbv zeta in H.
    destruct result as [[|a rt]|status]; [apply H | discriminate Hres | apply H]. }
  destruct (tokensRemoved_get _ Hrm) as [Ha Hrt].
  split; [exact Hrm|]. split; [exact Hidle|]. split.
  - simpl. unfold instance. rewrite requestInterceptor_falsy; [done|].
    by rewrite Ha.
  - rewrite no_refresh_token_cycle; [done..|]. by rewrite Hrt.
Qed.

(** X13.  After a refresh that brought a non-empty access token [a], the next
    request goes out with ["Bearer " ++ a].  The next refresh posts the
    refresh token of the response when it brought a truthy one, and the
    refresh token that was stored before otherwise. *)
Theorem refreshed_tokens_are_used (st : State) (o : Config) (a : string)
    (rt : jsval) (late : list Config) (c : Config) :
  consistent st →
  refresher st = Some {| originalRequest := o; awaited := Pending |} →
  Forall eligible late →
  a ≠ "" →
  eligible c →
  let st1 := after (run st (settleCycle (PostFulfilled (Data (JString a) rt)) late)) in
  let next := if truthy rt then rt else getRefreshToken st in
  emitted (step st1 (Request c)) =
    [Dispatch (withAuthorization ("Bearer " +:+ a) c)] ∧
  emitted (step st1 (ResponseRejected (unauthorized c))) =
    (if truthy next then [RefreshCall (apiRefreshUrl props) next] else []).
Proof.
  intros Hc Hr Hlate Ha Helig st1 next.
  destruct (settleCycle_state st o (PostFulfilled (Data (JString a) rt)) late
              Hc Hr Hlate) as (Hjar & Hidle & Hnil & _).
  fold st1 in Hjar, Hidle, Hnil.
  destruct (postSettled_fulfilled st o (JString a) rt Hr)
    as (_ & Hget & Hrefresh & _).
  rewrite <- (getAccessToken_cookies _ _ Hjar) in Hget.
  rewrite <- (getRefreshToken_cookies _ _ Hjar) in Hrefresh.
  fold next in Hrefresh. split.
  - simpl. unfold instance.
    rewrite requestInterceptor_truthy by (rewrite Hget; by apply truthy_JString).
    by rewrite Hget.
  - change (step st1 (ResponseRejected (unauthorized c)))
      with (responseRejected (unauthorized c) st1).
    rewrite responseRejected_idle by done. unfold handleTokenRefresh.
    replace (getRefreshToken (withIsRefreshing true st1))
      with (getRefreshToken st1) by done.
    rewrite Hrefresh. by destruct (truthy next).
Qed.

End Client.

(** * The properties on concrete clients *)

Lemma single_flight_refresh_witness :
  let r1 := run exampleDomain (Some httpsPage) stagingApp loggedIn
              (ResponseRejected ∘ unauthorized <$> [getUsers; getOrders]) in
  refreshCalls (emitted r1) = 1 ∧ failedQueue (after r1) = [getOrders] ∧
  emitted (run exampleDomain (Some httpsPage) stagingApp (after r1)
             [PostSettled (PostFulfilled (Data (JString "A2") JUndefined));
              AwaitResumed]) =
    [Dispatch (withAuthorization "Bearer A2" (withRetry getUsers));
     Dispatch (withAuthorization "Bearer A2" getOrders)] ∧
  emitted (run exampleDomain (Some httpsPage) stagingApp (after r1)
             [PostSettled (PostRejected (Some 403)); AwaitResumed]) =
    [Rejection (withRetry getUsers) (RefreshCallFailure (Some 403));
     Rejection getOrders (RefreshCallFailure (Some 403))].
Proof.
  assert (Hc : consistent loggedIn) by (split; [constructor | by split]).
  assert (Hu : eligible getUsers) by (split; [reflexivity | discriminate]).
  assert (Ho : Forall eligible [getOrders]).
  { constructor; [split; [reflexivity | discriminate] | constructor]. }
  destruct (single_flight_refresh exampleDomain (Some httpsPage) stagingApp
              loggedIn getUsers [getOrders] Hc eq_refl Hu Ho)
    as (Hcalls & _ & Hqueue & _ & Hsettle).
  destruct (Hsettle (PostFulfilled (Data (JString "A2") JUndefined)))
    as (_ & _ & _ & Hok).
  destruct (Hsettle (PostRejected (Some 403))) as (_ & _ & _ & Hko).
  split; [exact Hcalls | split; [exact Hqueue | split; [exact Hok | exact Hko]]].
Defined.

(** C1, as it is stated, fails for a client without a refresh token: a
    request that fails with 401 there runs a whole refresh cycle in which no
    call to the refresh endpoint goes out. *)
Lemma no_refresh_token_no_refresh_call :
  ¬ (∀ st c cs result,
       consistent st → refresher st = None → eligible c → Forall eligible cs →
       refreshCalls
         (emitted (run exampleDomain (Some httpsPage) stagingApp st
                     ((ResponseRejected ∘ unauthorized <$> c :: cs) ++
                      [PostSettled result; AwaitResumed]))) = 1).
Proof.
  intros H.
  assert (Hc : consistent initial) by (split; [constructor | by split]).
  assert (Hu : eligible getUsers) by (split; [reflexivity | discriminate]).
  assert (Ho : Forall eligible [getOrders]).
  { constructor; [split; [reflexivity | discriminate] | constructor]. }
  specialize (H initial getUsers [getOrders] (PostRejected None) Hc eq_refl Hu Ho).
  vm_compute in H. discriminate H.
Qed.

Lemma refresh_failure_detection_witness :
  getRefreshToken stagingApp
    (after (step exampleDomain (Some httpsPage) stagingApp refreshing
              (PostSettled (PostFulfilled (Data (JString "A2") JUndefined))))) =
  JString "R1".
Proof.
  destruct (refresh_failure_detection exampleDomain (Some httpsPage) stagingApp
              refreshing (withRetry getUsers)
              (PostFulfilled (Data (JString "A2") JUndefined)) eq_refl)
    as (_ & _ & H).
  exact H.
Defined.

(** C2, as it is stated, fails for a response whose body has no
    [accessToken]: the stored refresh token is still there afterwards. *)
Lemma missing_access_token_taken_as_success :
  ¬ (∀ st o result,
       refresher st = Some {| originalRequest := o; awaited := Pending |} →
       carriesAccessToken result = false →
       let r := step exampleDomain (Some httpsPage) stagingApp st (PostSettled result) in
       tokensRemoved stagingApp (after r) ∧
       ∃ reason, refresher (after r) =
                   Some {| originalRequest := o; awaited := Rejected reason |}).
Proof.
  intros H.
  destruct (H refreshing (withRetry getUsers)
              (PostFulfilled (Data JUndefined JUndefined)) eq_refl eq_refl)
    as [[_ Hremoved] _].
  vm_compute in Hremoved. discriminate Hremoved.
Qed.

Lemma refresh_failure_clears_tokens_and_rejects_witness :
  tokensRemoved stagingApp
    (after (step exampleDomain (Some httpsPage) stagingApp initial
              (ResponseRejected (unauthorized getUsers)))) ∧
  tokensRemoved stagingApp
    (after (step exampleDomain (Some httpsPage) stagingApp refreshing
              (PostSettled (PostRejected (Some 403))))) ∧
  emitted (step exampleDomain (Some httpsPage) stagingApp refused AwaitResumed) =
    [Rejection (withRetry getUsers) (RefreshCallFailure (Some 403));
     Rejection getOrders (RefreshCallFailure (Some 403))].
Proof.
  destruct (refresh_failure_clears_tokens_and_rejects
              exampleDomain (Some httpsPage) stagingApp) as (Hnone & Hpost & Hresume).
  split; [|split].
  - apply (Hnone initial getUsers);
      [reflexivity | split; [reflexivity | discriminate] | reflexivity].
  - apply (Hpost refreshing (withRetry getUsers) (PostRejected (Some 403)));
      reflexivity.
  - apply (Hresume refused (withRetry getUsers) (RefreshCallFailure (Some 403))).
    reflexivity.
Defined.

Lemma refresh_success_persists_and_replays_witness :
  let r := run exampleDomain (Some httpsPage) stagingApp refreshing
             (settleCycle (PostFulfilled (Data (JString "A2") JUndefined)) []) in
  getAccessToken stagingApp (after r) = JString "A2" ∧
  getRefreshToken stagingApp (after r) = JString "R1" ∧
  emitted r =
    [Dispatch (withAuthorization "Bearer A2" (withRetry getUsers));
     Dispatch (withAuthorization "Bearer A2" getOrders)].
Proof.
  assert (Hc : consistent refreshing).
  { split; [|by split].
    constructor; [split; [reflexivity | discriminate] | constructor]. }
  destruct (refresh_success_persists_and_replays
              exampleDomain (Some httpsPage) stagingApp
              refreshing (withRetry getUsers) (JString "A2") JUndefined []
              Hc eq_refl (Forall_nil_2 _))
    as (Hacc & _ & Hkeep & Hjar & Hout & _).
  specialize (Hkeep eq_refl).
  split; [|split].
  - unfold getAccessToken, cookiesGet. by rewrite Hjar, Hacc.
  - unfold getRefreshToken, cookiesGet. by rewrite Hjar, Hkeep.
  - exact Hout.
Defined.

Lemma refresh_completion_drains_queue_witness :
  let r := step exampleDomain (Some httpsPage) stagingApp refused AwaitResumed in
  failedQueue
    (after (step exampleDomain (Some httpsPage) stagingApp refused
              (ResponseRejected (unauthorized getUsers)))) = [getOrders; getUsers] ∧
  failedQueue (after r) = [] ∧ isRefreshing (after r) = false ∧
  tail (emitted r) = [Rejection getOrders (RefreshCallFailure (Some 403))].
Proof.
  destruct (refresh_completion_drains_queue
              exampleDomain (Some httpsPage) stagingApp refused
              (withRetry getUsers) (Rejected (RefreshCallFailure (Some 403))) eq_refl)
    as (Hpush & Hqueue & Hflag & _ & _ & Hout); [discriminate|].
  split; [|split; [exact Hqueue | split; [exact Hflag | exact Hout]]].
  apply (Hpush getUsers); [split; [reflexivity | discriminate] | reflexivity].
Defined.

Lemma login_unauthorized_passthrough_witness :
  step exampleDomain (Some httpsPage) stagingApp refreshing
    (ResponseRejected (unauthorized postLogin)) =
  (refreshing, [Rejection postLogin (ResponseFailure (unauthorized postLogin))]).
Proof.
  apply (login_unauthorized_passthrough exampleDomain (Some httpsPage) stagingApp
           refreshing (unauthorized postLogin)); reflexivity.
Defined.

Lemma requestInterceptor_authorization_witness :
  requestInterceptor stagingApp initial getUsers = getUsers ∧
  requestInterceptor stagingApp emptyAccessToken getUsers = getUsers ∧
  headers (requestInterceptor stagingApp loggedIn getUsers) !! "Authorization" =
    Some "Bearer A1".
Proof.
  destruct (requestInterceptor_authorization exampleDomain (Some httpsPage)
              stagingApp initial getUsers) as (_ & Hnone & _ & _).
  destruct (requestInterceptor_authorization exampleDomain (Some httpsPage)
              stagingApp emptyAccessToken getUsers) as (_ & _ & Hempty & _).
  destruct (requestInterceptor_authorization exampleDomain (Some httpsPage)
              stagingApp loggedIn getUsers) as (_ & _ & _ & Hstored).
  split; [|split].
  - apply Hnone. reflexivity.
  - apply Hempty. reflexivity.
  - apply (Hstored "A1"); [reflexivity | discriminate].
Defined.

(** C9, as it is stated, fails when the stored access token is the empty
    string: the request goes out without an Authorization header. *)
Lemma empty_access_token_not_attached :
  ¬ (∀ st c t,
       getAccessToken stagingApp st = JString t →
       headers (requestInterceptor stagingApp st c) !! "Authorization" =
         Some ("Bearer " +:+ t)).
Proof.
  intros H. specialize (H emptyAccessToken getUsers "" eq_refl).
  vm_compute in H. discriminate H.
Qed.

Lemma queued_replay_reenters_protocol_witness :
  let out :=
    emitted (run exampleDomain (Some httpsPage) stagingApp
               (after (run exampleDomain (Some httpsPage) stagingApp loggedIn
                         (ResponseRejected ∘ unauthorized <$> [getUsers; getOrders])))
               (settleCycle (PostFulfilled (Data (JString "A2") JUndefined)) [])) in
  Dispatch (withAuthorization "Bearer A2" getOrders) ∈ tail out ∧
  _retry (withAuthorization "Bearer A2" getOrders) = false ∧
  head out = Some (Dispatch (withAuthorization "Bearer A2" (withRetry getUsers))) ∧
  _retry (withAuthorization "Bearer A2" (withRetry getUsers)) = true ∧
  responseRejected stagingApp
    (unauthorized (withAuthorization "Bearer A2" (withRetry getUsers))) refreshing =
    (refreshing,
     [Rejection (withAuthorization "Bearer A2" (withRetry getUsers))
        (ResponseFailure
           (unauthorized (withAuthorization "Bearer A2" (withRetry getUsers))))]).
Proof.
  assert (Hc : consistent loggedIn) by (split; [constructor | by split]).
  assert (Hu : eligible getUsers) by (split; [reflexivity | discriminate]).
  assert (Ho : Forall eligible [getOrders]).
  { constructor; [split; [reflexivity | discriminate] | constructor]. }
  assert (Hin : getOrders ∈ [getOrders] ++ []) by apply list_elem_of_here.
  destruct (queued_replay_reenters_protocol
              exampleDomain (Some httpsPage) stagingApp
              loggedIn getUsers getOrders [getOrders] [] (JString "A2") JUndefined
              Hc eq_refl eq_refl Hu Ho (Forall_nil_2 _) Hin)
    as (_ & _ & _ & (Hqin & _ & Hqretry & _) & (Hhead & _ & Hmark & Hpass)).
  split; [exact Hqin|]. split; [exact Hqretry|]. split; [exact Hhead|].
  split; [exact Hmark | exact (Hpass refreshing)].
Defined.

(** * Whole cycles on a concrete client *)

(** Two requests fail with 401, the refresh answers with a new access token:
    one call to the refresh endpoint, then both requests go out again. *)
Example cycle_with_new_token :
  emitted (run exampleDomain (Some httpsPage) stagingApp loggedIn
             [ResponseRejected (unauthorized getUsers);
              ResponseRejected (unauthorized getOrders);
              PostSettled (PostFulfilled (Data (JString "A2") JUndefined));
              AwaitResumed]) =
  [RefreshCall "/api/auth/refresh" (JString "R1");
   Dispatch (withAuthorization "Bearer A2" (withRetry getUsers));
   Dispatch (withAuthorization "Bearer A2" getOrders)].
Proof. vm_compute. reflexivity. Qed.

(** The same with a refresh endpoint that refuses: both requests reject. *)
Example cycle_with_refusal :
  emitted (run exampleDomain (Some httpsPage) stagingApp loggedIn
             [ResponseRejected (unauthorized getUsers);
              ResponseRejected (unauthorized getOrders);
              PostSettled (PostRejected (Some 403));
              AwaitResumed]) =
  [RefreshCall "/api/auth/refresh" (JString "R1");
   Rejection (withRetry getUsers) (RefreshCallFailure (Some 403));
   Rejection getOrders (RefreshCallFailure (Some 403))].
Proof. vm_compute. reflexivity. Qed.

(** The same with a response whose body has no [accessToken]: the requests
    go out again, with the missing value spelled out in the header. *)
Example cycle_with_empty_body :
  emitted (run exampleDomain (Some httpsPage) stagingApp loggedIn
             [ResponseRejected (unauthorized getUsers);
              ResponseRejected (unauthorized getOrders);
              PostSettled (PostFulfilled (Data JUndefined JUndefined));
              AwaitResumed]) =
  [RefreshCall "/api/auth/refresh" (JString "R1");
   Dispatch (withAuthorization "Bearer undefined" (withRetry getUsers));
   Dispatch (withAuthorization "Bearer undefined" getOrders)].
Proof. vm_compute. reflexivity. Qed.

(** A client that never logged in: the first 401 clears the jar and fails at
    once, without a call to the refresh endpoint. *)
Example cycle_without_refresh_token :
  run exampleDomain (Some httpsPage) stagingApp initial
    [ResponseRejected (unauthorized getUsers); AwaitResumed] =
  (initial, [Rejection (withRetry getUsers) NoRefreshToken]).
Proof. vm_compute. reflexivity. Qed.

(** The options of the jar on the HTTPS page of the examples. *)
Example options_on_https_page :
  getCookieSetOptions exampleDomain (Some httpsPage) =
  {| path := Some "/"; secure := Some false; domain := Some "example.com";
     maxAge := None |}.
Proof. reflexivity. Qed.

(** * Further properties outside one client *)

(** ** Clients that share a jar *)

(** X4.  Two clients with the same namespace and different environments do not
    touch each other's tokens: what one writes or clears leaves both reads of
    the other as they were. *)
Theorem environments_do_not_share_tokens
    (registrable : string → option string) (page : option Location)
    (p q : ApiClientProps) (token : jsval) (st : State) :
  tokenNamespace p = tokenNamespace q → env p ≠ env q →
  getAccessToken q (setAccessToken registrable page p token st) = getAccessToken q st ∧
  getRefreshToken q (setAccessToken registrable page p token st) = getRefreshToken q st ∧
  getAccessToken q (setRefreshToken registrable page p token st) = getAccessToken q st ∧
  getRefreshToken q (setRefreshToken registrable page p token st) = getRefreshToken q st ∧
  getAccessToken q (clearTokens p st) = getAccessToken q st ∧
  getRefreshToken q (clearTokens p st) = getRefreshToken q st.
Proof.
  intros Hn He.
  pose proof (access_keys_distinct p q Hn He) as Haa.
  pose proof (refresh_keys_distinct p q Hn He) as Hrr.
  pose proof (keys_distinct p q Hn) as Har.
  pose proof (not_eq_sym (keys_distinct q p (eq_sym Hn))) as Hra.
  unfold getAccessToken, getRefreshToken, setAccessToken, setRefreshToken,
    clearTokens, cookiesGet, cookiesSet, cookiesRemove. simpl.
  rewrite !lookup_insert_ne, !lookup_delete_ne by done. done.
Qed.

Lemma environments_do_not_share_tokens_witness :
  getAccessToken productionDefault
    (setAccessToken exampleDomain (Some httpsPage)
       {| env := "staging"; apiRefreshUrl := ""; tokenNamespace := None;
          apiAuthBaseUrl := ""; apiBBaseUrl := None |}
       (JString "S1") initial) = JUndefined.
Proof.
  destruct (environments_do_not_share_tokens exampleDomain (Some httpsPage)
              {| env := "staging"; apiRefreshUrl := ""; tokenNamespace := None;
                 apiAuthBaseUrl := ""; apiBBaseUrl := None |}
              productionDefault (JString "S1") initial eq_refl)
    as (H & _); [discriminate|].
  exact H.
Defined.

(** ** Cookie keys and namespaces *)

Lemma length_append (a b : string) :
  String.length (a +:+ b) = String.length a + String.length b.
Proof.
  induction a as [|x a IH]; [reflexivity|].
  rewrite append_cons. simpl. by rewrite IH.
Qed.

Lemma append_tails (a b t u : string) :
  a +:+ t = b +:+ u → String.length t = String.length u → a = b ∧ t = u.
Proof.
  revert b. induction a as [|x a IH]; intros [|y b] H Hlen.
  - by rewrite !append_nil in H.
  - rewrite append_nil in H. subst t. rewrite length_append in Hlen.
    simpl in Hlen. lia.
  - rewrite append_nil in H. subst u. rewrite length_append in Hlen.
    simpl in Hlen. lia.
  - rewrite !append_cons in H. injection H as -> H.
    destruct (IH b H Hlen) as [-> ->]. done.
Qed.

(** X5.  Leaving the namespace out is the same as passing ["putty"]; and for one
    environment, two namespaces that differ derive four different keys. *)
Theorem namespaces_do_not_share_keys (p q : ApiClientProps) :
  env p = env q →
  (default "putty" (tokenNamespace p) = default "putty" (tokenNamespace q) →
     ACCESS_TOKEN_KEY p = ACCESS_TOKEN_KEY q ∧
     REFRESH_TOKEN_KEY p = REFRESH_TOKEN_KEY q) ∧
  (default "putty" (tokenNamespace p) ≠ default "putty" (tokenNamespace q) →
     ACCESS_TOKEN_KEY p ≠ ACCESS_TOKEN_KEY q ∧
     ACCESS_TOKEN_KEY p ≠ REFRESH_TOKEN_KEY q ∧
     REFRESH_TOKEN_KEY p ≠ ACCESS_TOKEN_KEY q ∧
     REFRESH_TOKEN_KEY p ≠ REFRESH_TOKEN_KEY q).
Proof.
  intros He.
  assert (Hs : envSuffix p = envSuffix q) by (unfold envSuffix; by rewrite He).
  unfold ACCESS_TOKEN_KEY, REFRESH_TOKEN_KEY, tokenPrefix. rewrite Hs.
  set (n := default "putty" (tokenNamespace p)).
  set (m := default "putty" (tokenNamespace q)).
  set (s := envSuffix q).
  split; [by intros ->|].
  intros Hne.
  assert (Hsame : ∀ word, (n +:+ "_") +:+ word +:+ s ≠ (m +:+ "_") +:+ word +:+ s).
  { intros word H. apply append_tails in H as [H _]; [|done].
    apply append_tails in H as [H _]; done. }
  assert (Hcross : ∀ a b, (a +:+ "_") +:+ "accessToken" +:+ s ≠
                          (b +:+ "_") +:+ "refreshToken" +:+ s).
  { intros a b H.
    rewrite <- !append_assoc in H.
    apply append_tails in H as [H _]; [|done].
    rewrite (append_assoc b "_" "refreshToken") in H.
    change ("_" +:+ "refreshToken") with ("_r" +:+ "efreshToken") in H.
    rewrite <- (append_assoc b "_r" "efreshToken") in H.
    apply append_tails in H as [_ H]; [discriminate H | reflexivity]. }
  split; [apply Hsame|]. split; [apply Hcross|].
  split; [|apply Hsame]. apply not_eq_sym, Hcross.
Qed.

Lemma namespaces_do_not_share_keys_witness :
  ACCESS_TOKEN_KEY productionDefault =
    ACCESS_TOKEN_KEY
      {| env := "production"; apiRefreshUrl := ""; tokenNamespace := Some "putty";
         apiAuthBaseUrl := ""; apiBBaseUrl := None |} ∧
  ACCESS_TOKEN_KEY productionDefault ≠
    REFRESH_TOKEN_KEY
      {| env := "production"; apiRefreshUrl := ""; tokenNamespace := Some "app";
         apiAuthBaseUrl := ""; apiBBaseUrl := None |}.
Proof.
  split.
  - destruct (namespaces_do_not_share_keys productionDefault
                {| env := "production"; apiRefreshUrl := "";
                   tokenNamespace := Some "putty";
                   apiAuthBaseUrl := ""; apiBBaseUrl := None |} eq_refl)
      as [Hsame _].
    apply Hsame. reflexivity.
  - destruct (namespaces_do_not_share_keys productionDefault
                {| env := "production"; apiRefreshUrl := "";
                   tokenNamespace := Some "app";
                   apiAuthBaseUrl := ""; apiBBaseUrl := None |} eq_refl)
      as [_ Hdiff].
    apply Hdiff. discriminate.
Defined.

(** The same does not hold when namespace and environment both differ: the
    access keys of these two configurations are the same string. *)
Example keys_collide_across_namespace_and_environment :
  ACCESS_TOKEN_KEY
    {| env := "x_accessToken_y"; apiRefreshUrl := ""; tokenNamespace := Some "a";
       apiAuthBaseUrl := ""; apiBBaseUrl := None |} =
  ACCESS_TOKEN_KEY
    {| env := "y"; apiRefreshUrl := ""; tokenNamespace := Some "a_accessToken_x";
       apiAuthBaseUrl := ""; apiBBaseUrl := None |}.
Proof. reflexivity. Qed.

(** ** External modules of the build *)

Lemma prefix_append (name rest : string) :
  String.prefix name (name +:+ rest) = true.
Proof.
  induction name as [|x name IH].
  - by destruct rest.
  - rewrite append_cons. simpl. by destruct (Ascii.ascii_dec x x).
Qed.

Lemma prefix_trans (a b c : string) :
  String.prefix a b = true → String.prefix b c = true → String.prefix a c = true.
Proof.
  revert b c. induction a as [|x a IH]; intros b c Hab Hbc.
  - by destruct c.
  - destruct b as [|y b]; [discriminate Hab|].
    destruct c as [|z c]; [discriminate Hbc|]. simpl in *.
    destruct (Ascii.ascii_dec x y) as [->|]; [|discriminate Hab].
    destruct (Ascii.ascii_dec y z) as [->|]; [|discriminate Hbc].
    eauto.
Qed.

(** X14.  Every import below a listed package is external too: an id made of a
    listed name and anything after it, such as a subpath. *)
Theorem external_subpaths (name rest : string) :
  name ∈ externalPackages → external (name +:+ rest) = true.
Proof.
  intros Hin. unfold external, beginsWithOneOf.
  apply existsb_exists. exists name.
  split; [by apply list_elem_of_In | apply prefix_append].
Qed.

Lemma external_subpaths_witness :
  external "@mui/material/styles" = true ∧ external "react/jsx-runtime" = true.
Proof.
  split.
  - apply (external_subpaths "@mui/material" "/styles"). set_solver.
  - apply (external_subpaths "react" "/jsx-runtime"). set_solver.
Defined.

(** X15.  A module id is external exactly when it begins with one of seven names:
    the entries [react-dom] and [react-is] add nothing to [react], which
    already takes every id that begins with these five letters. *)
Theorem external_minimal_list (id : string) :
  external id =
  beginsWithOneOf ["react"; "@mui/material"; "@emotion/react"; "@emotion/styled";
                   "axios"; "universal-cookie"; "tldts"] id.
Proof.
  unfold external, beginsWithOneOf, externalPackages.
  cbn [existsb].
  destruct (String.prefix "react" id) eqn:Hreact; [reflexivity|].
  assert (Hdom : String.prefix "react-dom" id = false).
  { destruct (String.prefix "react-dom" id) eqn:H; [|done].
    by rewrite (prefix_trans "react" "react-dom" id eq_refl H) in Hreact. }
  assert (His : String.prefix "react-is" id = false).
  { destruct (String.prefix "react-is" id) eqn:H; [|done].
    by rewrite (prefix_trans "react" "react-is" id eq_refl H) in Hreact. }
  rewrite Hdom, His. cbn [orb].
  by repeat match goal with |- context [String.prefix ?n id] =>
       destruct (String.prefix n id) end.
Qed.

(** * The further properties on concrete clients *)

Lemma clearTokens_removes_only_tokens_witness :
  cookies (clearTokens stagingApp
             (withCookies (<["theme" := tokenCookie "dark"]> (cookies loggedIn))
                loggedIn)) !! "theme" = Some (tokenCookie "dark").
Proof.
  destruct (clearTokens_removes_only_tokens stagingApp
              (withCookies (<["theme" := tokenCookie "dark"]> (cookies loggedIn))
                 loggedIn)) as (_ & _ & Hother & _).
  rewrite (Hother "theme"); [reflexivity | discriminate | discriminate].
Defined.

Lemma requestInterceptor_touches_only_authorization_witness :
  headers (requestInterceptor stagingApp loggedIn
             (withAuthorization "Basic dXNlcg==" getUsers)) !! "Authorization" =
    Some "Bearer A1".
Proof.
  destruct (requestInterceptor_touches_only_authorization stagingApp loggedIn
              (withAuthorization "Basic dXNlcg==" getUsers))
    as (_ & _ & _ & Hset & _).
  apply Hset. reflexivity.
Defined.

Lemma response_passthrough_iff_witness :
  step exampleDomain (Some httpsPage) stagingApp loggedIn
    (ResponseRejected {| config := getUsers; status := Some 500 |}) =
  (loggedIn,
   [Rejection getUsers (ResponseFailure {| config := getUsers; status := Some 500 |})]).
Proof.
  apply (response_passthrough_iff exampleDomain (Some httpsPage) stagingApp
           loggedIn {| config := getUsers; status := Some 500 |}).
  intros [Hstatus _]. discriminate Hstatus.
Defined.

Lemma refresh_start_witness :
  emitted (step exampleDomain (Some httpsPage) stagingApp loggedIn
             (ResponseRejected (unauthorized getUsers))) =
  [RefreshCall "/api/auth/refresh" (JString "R1")].
Proof.
  destruct (refresh_start exampleDomain (Some httpsPage) stagingApp
              loggedIn getUsers) as (Hcall & _);
    [reflexivity | split; [reflexivity | discriminate] | reflexivity |].
  exact Hcall.
Defined.

Lemma reachable_states_witness :
  failedQueue
    (after (run exampleDomain (Some httpsPage) stagingApp initial
              [ResponseRejected (unauthorized postLogin);
               ResponseRejected (unauthorized getUsers);
               AwaitResumed])) = [].
Proof.
  destruct (reachable_states exampleDomain (Some httpsPage) stagingApp
              [ResponseRejected (unauthorized postLogin);
               ResponseRejected (unauthorized getUsers);
               AwaitResumed]) as (_ & Hidle & _).
  apply Hidle. reflexivity.
Defined.

Lemma refresh_calls_bounded_witness :
  (refreshCalls
     (emitted (run exampleDomain (Some httpsPage) stagingApp loggedIn
                 [ResponseRejected (unauthorized getUsers);
                  ResponseRejected (unauthorized getOrders);
                  ResponseRejected (unauthorized getUsers)])) ≤ 1)%nat.
Proof.
  assert (Hc : consistent loggedIn) by (split; [constructor | by split]).
  destruct (refresh_calls_bounded exampleDomain (Some httpsPage) stagingApp
              loggedIn
              [ResponseRejected (unauthorized getUsers);
               ResponseRejected (unauthorized getOrders);
               ResponseRejected (unauthorized getUsers)] Hc) as [_ Hbound].
  exact Hbound.
Defined.

Lemma every_call_answered_once_witness :
  answers
    (emitted (run exampleDomain (Some httpsPage) stagingApp loggedIn
                [Request getUsers;
                 ResponseRejected (unauthorized getUsers);
                 ResponseRejected (unauthorized getOrders);
                 PostSettled (PostRejected None);
                 AwaitResumed])) = 3.
Proof.
  assert (Hc : consistent loggedIn) by (split; [constructor | by split]).
  pose proof (every_call_answered_once exampleDomain (Some httpsPage) stagingApp
                loggedIn
                [Request getUsers;
                 ResponseRejected (unauthorized getUsers);
                 ResponseRejected (unauthorized getOrders);
                 PostSettled (PostRejected None);
                 AwaitResumed] Hc) as H.
  exact H.
Defined.

Lemma failed_refresh_forces_login_witness :
  emitted
    (run exampleDomain (Some httpsPage) stagingApp
       (after (run exampleDomain (Some httpsPage) stagingApp refreshing
                 (settleCycle (PostRejected (Some 403)) [])))
       [ResponseRejected (unauthorized getUsers); AwaitResumed]) =
  [Rejection (withRetry getUsers) NoRefreshToken].
Proof.
  assert (Hc : consistent refreshing).
  { split; [|by split].
    constructor; [split; [reflexivity | discriminate] | constructor]. }
  destruct (failed_refresh_forces_login exampleDomain (Some httpsPage) stagingApp
              refreshing (withRetry getUsers) (PostRejected (Some 403)) []
              getUsers Hc eq_refl (Forall_nil_2 _) eq_refl)
    as (_ & _ & _ & H); [split; [reflexivity | discriminate]|].
  exact H.
Defined.

Lemma refreshed_tokens_are_used_witness :
  emitted
    (step exampleDomain (Some httpsPage) stagingApp
       (after (run exampleDomain (Some httpsPage) stagingApp refreshing
                 (settleCycle (PostFulfilled (Data (JString "A2") (JString "R2"))) [])))
       (ResponseRejected (unauthorized getUsers))) =
  [RefreshCall "/api/auth/refresh" (JString "R2")].
Proof.
  assert (Hc : consistent refreshing).
  { split; [|by split].
    constructor; [split; [reflexivity | discriminate] | constructor]. }
  destruct (refreshed_tokens_are_used exampleDomain (Some httpsPage) stagingApp
              refreshing (withRetry getUsers) "A2" (JString "R2") []
              getUsers Hc eq_refl (Forall_nil_2 _))
    as (_ & H); [discriminate | split; [reflexivity | discriminate] |].
  exact H.
Defined.
